(** * Scammer_Tracker.py: a shallow embedding and its properties

    The program scans a mailbox through a paginated HTTP API, classifies
    every message with two keyword patterns and writes the matches to a
    CSV file.  This file embeds the four parts of [Scammer_Tracker.py]
    (pattern classifier, token provider, page fetcher, scan driver) as
    Rocq functions and proves the properties stated about them.

    Conventions of the embedding:
    - a Python [str] is a list of Unicode code points ([N]);
    - a Python exception is a value of [exn], and a function that may
      raise returns a [result];
    - the HTTP server is the list of responses it gives to the successive
      requests; the requests and the sleeps of the program are recorded
      in a trace;
    - the console is an append-only list of printed lines; the progress
      bar of [tqdm] only displays, so the embedding keeps whether a bar
      exists and no more;
    - a message of the listing is a record of the fields the program
      selects, each of which may be absent;
    - the identity library is a black box: the type of its caches and the
      answers of its calls are parameters, as are the clock and the
      constant [CHANGE_PHRASE], which the source uses and does not define;
    - the Unicode tables of the interpreter (which code points above
      U+007F are alphanumeric, which are decimal digits, how they compare
      case-insensitively) are parameters: every theorem holds for
      whatever tables the interpreter has. *)

From Stdlib Require Import List NArith ZArith Bool Lia String Ascii.
Import ListNotations.

Set Implicit Arguments.

(** ** Strings *)

Definition char := N.
Definition str := list char.

(** An ASCII literal as a Python string. *)
Definition lit (s : string) : str := List.map N_of_ascii (list_ascii_of_string s).

Definition LF : char := 10%N.
Definition CR : char := 13%N.
Definition SPACE : char := 32%N.
Definition COMMA : char := 44%N.
Definition DQUOTE : char := 34%N.

Fixpoint str_eqb (a b : str) : bool :=
  match a, b with
  | [], [] => true
  | x :: a', y :: b' => (x =? y)%N && str_eqb a' b'
  | _, _ => false
  end.

(** [x or ""] for a value that is [None] or a string. *)
Definition or_empty (x : option str) : str :=
  match x with
  | None => []
  | Some s => s
  end.

Definition is_some {A} (o : option A) : bool :=
  match o with Some _ => true | None => false end.

(** A Python [dict] with string keys, in insertion order. *)
Definition dict (V : Type) := list (str * V).

Fixpoint dict_get {V} (k : str) (d : dict V) : option V :=
  match d with
  | [] => None
  | (k', v) :: d' => if str_eqb k k' then Some v else dict_get k d'
  end.

Definition dict_has {V} (k : str) (d : dict V) : bool := is_some (dict_get k d).
Definition keys {V} (d : dict V) : list str := List.map fst d.

(** The two [RuntimeError]s of [get_token], with the dictionary each
    message is formatted from. *)
Inductive auth_failure :=
| DeviceFlowFailed (flow : dict str)
| AuthFailed (res : dict str).

(** Exceptions the program can meet. *)
Inductive exn :=
| AttributeError
| ValueError
| OverflowError
| KeyError
| OSError
| HTTPError
| JSONDecodeError
| CsvError
| RuntimeError (why : auth_failure).

Inductive result (A : Type) :=
| Ok (a : A)
| Raise (e : exn).
Arguments Ok {A} a.
Arguments Raise {A} e.

Definition bind {A B} (r : result A) (k : A -> result B) : result B :=
  match r with
  | Ok a => k a
  | Raise e => Raise e
  end.

Notation "x <- r ;; k" := (bind r (fun x => k))
  (at level 61, r at next level, right associativity).

Definition is_ok {A} (r : result A) : bool :=
  match r with Ok _ => true | Raise _ => false end.

(** ASCII character classes. *)
Definition in_range (lo hi c : N) : bool := ((lo <=? c) && (c <=? hi))%N.
Definition ascii_isupper (c : char) : bool := in_range 65 90 c.
Definition ascii_isdigit (c : char) : bool := in_range 48 57 c.
Definition ascii_isalnum (c : char) : bool :=
  ascii_isdigit c || in_range 65 90 c || in_range 97 122 c.
Definition ascii_lower (c : char) : char :=
  if ascii_isupper c then (c + 32)%N else c.

(** [str.isspace] for one code point (CPython's [_PyUnicode_IsWhitespace]). *)
Definition py_isspace (c : char) : bool :=
  in_range 9 13 c || in_range 28 32 c
  || (c =? 133)%N || (c =? 160)%N || (c =? 5760)%N
  || in_range 8192 8202 c || (c =? 8232)%N || (c =? 8233)%N
  || (c =? 8239)%N || (c =? 8287)%N || (c =? 12288)%N.

Fixpoint lstrip (s : str) : str :=
  match s with
  | [] => []
  | c :: r => if py_isspace c then lstrip r else s
  end.

(** [str.strip()] *)
Definition py_strip (s : str) : str := rev (lstrip (rev (lstrip s))).

(** [str.replace(old, new)] for a one-character [old]. *)
Definition replace_char (old new : char) (s : str) : str :=
  List.map (fun c => if (c =? old)%N then new else c) s.

(** ** Configuration constants (module level) *)

Definition MAILBOX : str := lit "gmalawi@fabricatedmetals.com".
Definition PAGE_SIZE : Z := 50.

Definition CHANGE_SINGLE : list str :=
  List.map lit ["change"; "modify"; "switch"; "update"; "alter"; "revise"; "amend"; "edit"]%string.
Definition ADDR_SINGLE : list str := List.map lit ["address"]%string.
Definition ADDR_PHRASE : list str :=
  List.map lit ["mailing address"; "billing address"; "remit to";
                "remittance address"; "ship to"]%string.
Definition BANK_SINGLE : list str := List.map lit ["ach"]%string.
Definition BANK_PHRASE : list str :=
  List.map lit ["bank account"; "bank information"; "bank details";
                "routing information"; "routing number"; "account number";
                "wire instructions"; "direct deposit"; "payment details";
                "routing #"; "acct #"; "account #"; "bank acct"]%string.

(** ** Regular expressions of [_compile_terms]

    The pattern built by [_compile_terms] is an alternation whose
    branches are sequences of two kinds of atoms: the assertion [\b] and
    a literal character compared under [re.IGNORECASE] ([re.escape]
    makes every character of a term literal). *)

Inductive atom :=
| AWordB
| ALit (c : char).

Definition branch := list atom.
Definition regex := list branch.

Section Program.

Set Default Proof Using "Type".

(** Unicode tables of the interpreter, consulted only above U+007F. *)
Variable uni_word : char -> bool.
Variable uni_ci : char -> char -> bool.
Variable uni_decimal : char -> option N.

(** [CHANGE_PHRASE] is used on line 41 of the source and is defined
    nowhere in it: it is a parameter of the embedding. *)
Variable CHANGE_PHRASE : list str.

(** [\w] of a [str] pattern. *)
Definition is_word (c : char) : bool :=
  if (c <? 128)%N then ascii_isalnum c || (c =? 95)%N else uni_word c.

(** A literal [p] of the pattern against the character [t] of the text,
    under [re.IGNORECASE]. *)
Definition lit_match (p t : char) : bool :=
  if ((p <? 128) && (t <? 128))%N then (ascii_lower p =? ascii_lower t)%N
  else uni_ci p t.

Definition is_word_opt (o : option char) : bool :=
  match o with
  | Some c => is_word c
  | None => false
  end.

(** [\b] between the character before the position and the text after it. *)
Definition at_boundary (prev : option char) (rest : str) : bool :=
  xorb (is_word_opt prev) (is_word_opt (head rest)).

(** Match one branch at a position; the result is the length matched. *)
Fixpoint match_atoms (b : branch) (prev : option char) (rest : str) : option nat :=
  match b with
  | [] => Some 0
  | AWordB :: b' => if at_boundary prev rest then match_atoms b' prev rest else None
  | ALit p :: b' =>
      match rest with
      | [] => None
      | t :: rest' =>
          if lit_match p t
          then option_map S (match_atoms b' (Some t) rest')
          else None
      end
  end.

(** The first branch, in order, that matches at the position. *)
Fixpoint match_alt (re : regex) (prev : option char) (rest : str) : option nat :=
  match re with
  | [] => None
  | b :: re' =>
      match match_atoms b prev rest with
      | Some n => Some n
      | None => match_alt re' prev rest
      end
  end.

(** [pattern.search]: the leftmost position where a branch matches,
    returned as the span (start, end) of the match object. *)
Fixpoint search_from (re : regex) (pos : nat) (prev : option char) (rest : str)
  : option (nat * nat) :=
  match match_alt re prev rest with
  | Some n => Some (pos, pos + n)
  | None =>
      match rest with
      | [] => None
      | c :: rest' => search_from re (S pos) (Some c) rest'
      end
  end.

Definition search (re : regex) (text : str) : option (nat * nat) :=
  search_from re 0 None text.

Definition escape (t : str) : branch := List.map ALit t.

Definition _compile_terms (single_terms phrase_terms : list str) : option regex :=
  let parts := List.map (fun t => AWordB :: escape t ++ [AWordB]) single_terms in
  let parts := parts ++ List.map escape phrase_terms in
  match parts with
  | [] => None
  | _ => Some parts
  end.

Definition PAT_CHANGE : option regex := _compile_terms CHANGE_SINGLE CHANGE_PHRASE.
Definition PAT_ADDRBANK : option regex :=
  _compile_terms (ADDR_SINGLE ++ BANK_SINGLE) (ADDR_PHRASE ++ BANK_PHRASE).

(** [pat.search(text)] on a pattern that may be [None]. *)
Definition pat_search (pat : option regex) (text : str) : result (option (nat * nat)) :=
  match pat with
  | None => Raise AttributeError
  | Some re => Ok (search re text)
  end.

Definition qualifies (subject preview : option str) : result bool :=
  let text := or_empty subject ++ [LF] ++ or_empty preview in
  m1 <- pat_search PAT_CHANGE text ;;
  match m1 with
  | None => Ok false
  | Some _ =>
      m2 <- pat_search PAT_ADDRBANK text ;;
      Ok (is_some m2)
  end.


(** The classifier's decision as a boolean, once both patterns exist. *)
Definition has_match (pat : option regex) (text : str) : bool :=
  match pat with
  | None => false
  | Some re => is_some (search re text)
  end.

(** ** Messages and match records *)

(** A message of the listing, with the fields of [$select].  A field is
    [None] when the key is absent or null.  [emailAddress] is an object
    whenever it is present. *)
Record email_address := { address : option str }.
Record recipient := { emailAddress : option email_address }.
Record message := {
  msg_id : option str;
  msg_subject : option str;
  msg_from : option recipient;
  msg_receivedDateTime : option str;
  msg_webLink : option str;
  msg_internetMessageId : option str;
  msg_bodyPreview : option str
}.

(** [(msg.get("from") or {}).get("emailAddress", {}).get("address")] *)
Definition sender_of (msg : message) : option str :=
  match msg_from msg with
  | None => None
  | Some r =>
      match emailAddress r with
      | None => None
      | Some ea => address ea
      end
  end.

(** [(msg.get("subject") or "").replace("\r"," ").replace("\n"," ").strip()] *)
Definition subj_of (msg : message) : str :=
  py_strip (replace_char LF SPACE (replace_char CR SPACE (or_empty (msg_subject msg)))).

Definition prev_of (msg : message) : str := or_empty (msg_bodyPreview msg).

(** A Match Record: a dictionary with six keys in insertion order. *)
Definition match_record := dict (option str).

Definition match_keys : list str :=
  List.map lit ["id"; "internetMessageId"; "from"; "receivedDateTime"; "subject"; "webLink"]%string.

Definition mk_match (msg : message) : match_record :=
  [ (lit "id", msg_id msg);
    (lit "internetMessageId", msg_internetMessageId msg);
    (lit "from", sender_of msg);
    (lit "receivedDateTime", msg_receivedDateTime msg);
    (lit "subject", Some (subj_of msg));
    (lit "webLink", msg_webLink msg) ].

(** ** Console *)

Inductive output :=
| PInfoWindow (days : Z)
| PInfoCaps (max_scan max_results : Z)
| PAction (uri code : str)
| PHeader
| PRule
| PScan (scanned : Z) (total : option Z)
| PHit (sender rdt subj : str)
| PDoneSaved (n : nat) (scanned : Z) (out : str)
| PDoneNone (scanned : Z)
| PNotes
| PFatal (e : exn).

(** ** Scan driver: the body of the two loops of [main] *)

Variable MAX_SCAN : Z.
Variable MAX_RESULTS : Z.

Record scan_state := {
  scanned : Z;
  matches : list match_record;
  console : list output
}.

(** Truth value of [total_est] (a number or [None]). *)
Definition truthy_count (t : option Z) : bool :=
  match t with
  | Some z => negb (z =? 0)%Z
  | None => false
  end.

(** Lines 141-149.  [bar] says whether a progress bar exists; the bar
    itself only displays and is taken as truthy once created. *)
Definition count_one (bar : bool) (total_est : option Z) (st : scan_state) : scan_state :=
  let n := (scanned st + 1)%Z in
  {| scanned := n;
     matches := matches st;
     console :=
       if bar then console st
       else if (n mod 200 =? 0)%Z
            then console st ++ [PScan n (if truthy_count total_est then total_est else None)]
            else console st |}.

(** Lines 151-165. *)
Definition classify (msg : message) (st : scan_state) : result scan_state :=
  let sender := sender_of msg in
  let rdt := msg_receivedDateTime msg in
  let subj := subj_of msg in
  let prev := prev_of msg in
  q <- qualifies (Some subj) (Some prev) ;;
  if (q : bool)
  then Ok {| scanned := scanned st;
             matches := matches st ++ [mk_match msg];
             console := console st ++ [PHit (or_empty sender) (or_empty rdt) subj] |}
  else Ok st.

Definition process_msg (bar : bool) (total_est : option Z) (msg : message)
    (st : scan_state) : result scan_state :=
  classify msg (count_one bar total_est st).

(** [scanned >= MAX_SCAN or len(matches) >= MAX_RESULTS] *)
Definition capped (st : scan_state) : bool :=
  ((MAX_SCAN <=? scanned st) || (MAX_RESULTS <=? Z.of_nat (List.length (matches st))))%Z.

(** The inner loop [for msg in page] with its [break]. *)
Fixpoint scan_page (bar : bool) (total_est : option Z) (page : list message)
    (st : scan_state) : result scan_state :=
  match page with
  | [] => Ok st
  | msg :: rest =>
      st' <- process_msg bar total_est msg st ;;
      if capped st' then Ok st' else scan_page bar total_est rest st'
  end.

(** ** Page fetcher *)

(** [int(s)] for a string: optional surrounding whitespace, an optional
    sign, decimal digits with single underscores between them.  More
    digits than [int_max_str_digits] raise [ValueError] as an ill-formed
    string does: both are [None] here. *)
Definition int_max_str_digits : nat := 4300.

Definition c_isspace (c : char) : bool := in_range 9 13 c || (c =? 32)%N.

Definition int_space (c : char) : bool :=
  if (c <? 128)%N then c_isspace c else py_isspace c.

Definition int_digit (c : char) : option N :=
  if (c <? 128)%N then (if ascii_isdigit c then Some (c - 48)%N else None)
  else if py_isspace c then None else uni_decimal c.

Fixpoint skip_space (s : str) : str :=
  match s with
  | [] => []
  | c :: r => if int_space c then skip_space r else s
  end.

(** The digits after the first one; [us] says that the previous
    character was an underscore. *)
Fixpoint scan_digits (s : str) (us : bool) (acc : N) (n : nat) : option (N * nat * str) :=
  match s with
  | [] => if us then None else Some (acc, n, [])
  | c :: r =>
      if (c =? 95)%N then (if us then None else scan_digits r true acc n)
      else match int_digit c with
           | Some d => scan_digits r false (acc * 10 + d)%N (S n)
           | None => if us then None else Some (acc, n, s)
           end
  end.

Definition int_unsigned (s : str) : option N :=
  match s with
  | [] => None
  | c :: r =>
      match int_digit c with
      | None => None
      | Some d =>
          match scan_digits r false d 1 with
          | None => None
          | Some (v, n, rest) =>
              match skip_space rest with
              | [] => if (int_max_str_digits <? n)%nat then None else Some v
              | _ :: _ => None
              end
          end
      end
  end.

Definition py_int (s : str) : option Z :=
  match skip_space s with
  | [] => None
  | c :: r =>
      if (c =? 43)%N then option_map Z.of_N (int_unsigned r)
      else if (c =? 45)%N then option_map (fun v => (- Z.of_N v)%Z) (int_unsigned r)
      else option_map Z.of_N (int_unsigned (c :: r))
  end.

(** [time.sleep(n)] for an integer: a negative length and a length that
    does not fit the clock's 64-bit nanoseconds are refused. *)
Definition max_sleep : Z := 9223372036.

Definition py_sleep (n : Z) : result unit :=
  if (n <? 0)%Z then Raise ValueError
  else if (max_sleep <? n)%Z then Raise OverflowError
  else Ok tt.

Record request := {
  req_url : str;
  req_params : option (dict str);
  req_headers : dict str
}.

(** The decoded body of a listing response. *)
Record listing := {
  value : option (list message);
  odata_count : option Z;
  odata_nextLink : option str
}.

(** A response: its status, its [Retry-After] header if any, and its body
    ([None] when the body is not JSON). *)
Record response := {
  status_code : Z;
  retry_after : option str;
  body : option listing
}.

Inductive event :=
| EvGet (rq : request)
| EvSleep (secs : Z).

(** [iso_days_ago] reads the clock: it is a parameter. *)
Variable iso_days_ago : Z -> result str.
Variable DAYS_BACK : Z.

Definition base_url : str :=
  if str_eqb (List.map ascii_lower (py_strip MAILBOX)) (lit "me")
  then lit "https://graph.microsoft.com/v1.0/me/messages"
  else lit "https://graph.microsoft.com/v1.0/users/" ++ MAILBOX ++ lit "/messages".

(** The local variables of the generator [fetch_pages]. *)
Record gen_locals := {
  g_url : str;
  g_params : option (dict str);
  g_headers : dict str;
  g_first : bool;
  g_total_est : option Z
}.

(** Lines 84-99: the locals when the [while] loop is first entered. *)
Definition fetch_init (token : str) : result gen_locals :=
  since <- iso_days_ago DAYS_BACK ;;
  Ok {| g_url := base_url;
        g_params := Some
          [ (lit "$filter", lit "receivedDateTime ge " ++ since);
            (lit "$orderby", lit "receivedDateTime desc");
            (lit "$top", lit "50") (* str(PAGE_SIZE) *);
            (lit "$select",
             lit "id,subject,from,receivedDateTime,webLink,internetMessageId,bodyPreview");
            (lit "$count", lit "true") ];
        g_headers :=
          [ (lit "Authorization", lit "Bearer " ++ token);
            (lit "ConsistencyLevel", lit "eventual");
            (lit "Prefer", lit "outlook.body-content-type=" ++ [DQUOTE] ++ lit "text" ++ [DQUOTE]) ];
        g_first := true;
        g_total_est := None |}.

Definition request_of (g : gen_locals) : request :=
  {| req_url := g_url g; req_params := g_params g; req_headers := g_headers g |}.

(** What one turn of the [while True] loop does with the response. *)
Inductive step_out :=
| SRetry (secs : Z)
| SRaise (e : exn)
| SYield (page : list message) (total : option Z) (g : gen_locals) (data : listing).

(** Lines 102-109. *)
Definition fetch_step (g : gen_locals) (r : response) : step_out :=
  if (status_code r =? 429)%Z then
    match py_int (match retry_after r with Some v => v | None => lit "5" end) with
    | None => SRaise ValueError
    | Some n =>
        match py_sleep n with
        | Raise e => SRaise e
        | Ok _ => SRetry n
        end
    end
  else if ((400 <=? status_code r) && (status_code r <? 600))%Z then SRaise HTTPError
  else
    match body r with
    | None => SRaise JSONDecodeError
    | Some data =>
        let g' :=
          if g_first g
          then {| g_url := g_url g; g_params := g_params g; g_headers := g_headers g;
                  g_first := false; g_total_est := odata_count data |}
          else g in
        SYield (match value data with Some v => v | None => [] end) (g_total_est g') g' data
    end.

(** Lines 110-114, run when the generator is resumed: [None] is [break]. *)
Definition resume (g : gen_locals) (data : listing) : option gen_locals :=
  match odata_nextLink data with
  | None => None
  | Some [] => None
  | Some next_link =>
      Some {| g_url := next_link; g_params := None; g_headers := g_headers g;
              g_first := g_first g; g_total_est := g_total_est g |}
  end.

(** How a loop over the responses ends: normally, by an exception, or
    still waiting for a response when the list of responses is used up. *)
Inductive ending :=
| Done
| Raised (e : exn)
| Waiting.

(** The generator consumed to its end: its trace, the pages it yields
    and how it ends. *)
Fixpoint fetch_loop (g : gen_locals) (rs : list response)
  : list event * list (list message * option Z) * ending :=
  match rs with
  | [] => ([], [], Waiting)
  | r :: rs' =>
      let rq := EvGet (request_of g) in
      match fetch_step g r with
      | SRetry n =>
          let '(tr, ps, e) := fetch_loop g rs' in (rq :: EvSleep n :: tr, ps, e)
      | SRaise e => ([rq], [], Raised e)
      | SYield page total g' data =>
          match resume g' data with
          | None => ([rq], [(page, total)], Done)
          | Some g'' =>
              let '(tr, ps, e) := fetch_loop g'' rs' in (rq :: tr, (page, total) :: ps, e)
          end
      end
  end.

Definition fetch_pages (token : str) (rs : list response)
  : list event * list (list message * option Z) * ending :=
  match fetch_init token with
  | Raise e => ([], [], Raised e)
  | Ok g => fetch_loop g rs
  end.

(** ** Scan driver: the outer loop of [main] over the generator *)

(** Whether [tqdm] could be imported. *)
Variable tqdm : bool.

Record loop_state := {
  first_page : bool;
  bar : bool;
  total_est : option Z;
  st : scan_state;
  pages_got : list (list message)
}.

(** Lines 134-171 for one yielded page; the boolean says [break]. *)
Definition page_body (page : list message) (total : option Z) (l : loop_state)
  : result (loop_state * bool) :=
  let l1 :=
    if first_page l
    then {| first_page := false; bar := tqdm; total_est := total;
            st := st l; pages_got := pages_got l |}
    else l in
  s' <- scan_page (bar l1) (total_est l1) page (st l1) ;;
  Ok ({| first_page := false; bar := bar l1; total_est := total_est l1;
         st := s'; pages_got := pages_got l1 ++ [page] |}, capped s').

(** [for page, total in fetch_pages(token)]: the generator runs only
    when the loop asks for the next page. *)
Fixpoint main_loop (g : gen_locals) (rs : list response) (l : loop_state)
  : list event * loop_state * ending :=
  match rs with
  | [] => ([], l, Waiting)
  | r :: rs' =>
      let rq := EvGet (request_of g) in
      match fetch_step g r with
      | SRetry n =>
          let '(tr, l', e) := main_loop g rs' l in (rq :: EvSleep n :: tr, l', e)
      | SRaise e => ([rq], l, Raised e)
      | SYield page total g' data =>
          match page_body page total l with
          | Raise e => ([rq], l, Raised e)
          | Ok (l1, true) => ([rq], l1, Done)
          | Ok (l1, false) =>
              match resume g' data with
              | None => ([rq], l1, Done)
              | Some g'' =>
                  let '(tr, l', e) := main_loop g'' rs' l1 in (rq :: tr, l', e)
              end
          end
      end
  end.

(** ** Token provider

    The identity library is a black box: a type of caches and the answers
    of its calls are parameters. *)

Variable cache : Type.
Variable new_cache : cache.
Variable cache_deserialize : cache -> str -> result cache.
Variable cache_serialize : cache -> str.
Variable acquire_token_silent : cache -> option (dict str) * cache.
Variable initiate_device_flow : dict str.
Variable acquire_token_by_device_flow : cache -> dict str -> dict str * cache.

(** The file at [CACHE_PATH] when the program starts. *)
Inductive cache_file :=
| NoFile
| Unreadable
| Content (s : str).

(** Lines 59-64: every failure of reading or decoding is swallowed. *)
Definition load_cache (cf : cache_file) : cache :=
  match cf with
  | NoFile => new_cache
  | Unreadable => new_cache
  | Content s =>
      match cache_deserialize new_cache s with
      | Ok c => c
      | Raise _ => new_cache
      end
  end.

(** Truth value of a result that is [None] or a dictionary. *)
Definition truthy_dict (r : option (dict str)) : option (dict str) :=
  match r with
  | Some (kv :: d) => Some (kv :: d)
  | _ => None
  end.

Record token_outcome := {
  tok : result str;
  tok_console : list output;
  tok_written : option str
}.

(** Lines 70-76: the result the access token is read from. *)
Definition acquire (c : cache) : result (dict str * cache) * list output :=
  let '(res, c1) := acquire_token_silent c in
  match truthy_dict res with
  | Some d => (Ok (d, c1), [])
  | None =>
      let flow := initiate_device_flow in
      if negb (dict_has (lit "user_code") flow)
      then (Raise (RuntimeError (DeviceFlowFailed flow)), [])
      else
        match dict_get (lit "verification_uri") flow, dict_get (lit "user_code") flow with
        | Some uri, Some code =>
            (Ok (acquire_token_by_device_flow c1 flow), [PAction uri code])
        | _, _ => (Raise KeyError, [])
        end
  end.

(** [get_token]; [writable] says whether [CACHE_PATH] can be written. *)
Definition get_token (cf : cache_file) (writable : bool) : token_outcome :=
  match acquire (load_cache cf) with
  | (Raise e, out) => {| tok := Raise e; tok_console := out; tok_written := None |}
  | (Ok (res, c), out) =>
      match dict_get (lit "access_token") res with
      | None => {| tok := Raise (RuntimeError (AuthFailed res));
                   tok_console := out; tok_written := None |}
      | Some token =>
          if writable
          then {| tok := Ok token; tok_console := out;
                  tok_written := Some (cache_serialize c) |}
          else {| tok := Raise OSError; tok_console := out; tok_written := None |}
      end
  end.

(** ** CSV output *)

(** [QUOTE_MINIMAL] of the default dialect: a field is quoted when it
    holds the delimiter, the quote character or a character of the line
    terminator. *)
Definition special (c : char) : bool :=
  ((c =? COMMA) || (c =? DQUOTE) || (c =? CR) || (c =? LF))%N.

Definition needs_quote (f : str) : bool := existsb special f.

Definition double_quotes (f : str) : str :=
  flat_map (fun c => if (c =? DQUOTE)%N then [DQUOTE; DQUOTE] else [c]) f.

Definition csv_field (f : str) : str :=
  if needs_quote f then DQUOTE :: double_quotes f ++ [DQUOTE] else f.

Fixpoint csv_join (fs : list str) : str :=
  match fs with
  | [] => []
  | [f] => csv_field f
  | f :: fs' => csv_field f ++ COMMA :: csv_join fs'
  end.

(** [writer.writerow]: a row of one empty field is written quoted. *)
Definition csv_row (fs : list str) : str :=
  match fs with
  | [[]] => [DQUOTE; DQUOTE; CR; LF]
  | _ => csv_join fs ++ [CR; LF]
  end.

(** [DictWriter._dict_to_list]: a key outside [fieldnames] is refused, a
    missing key gives the empty string, and [None] is written as the
    empty string. *)
Definition dict_to_list (fieldnames : list str) (d : match_record) : result (list str) :=
  if forallb (fun k => existsb (str_eqb k) fieldnames) (keys d)
  then Ok (List.map (fun k => match dict_get k d with
                              | Some v => or_empty v
                              | None => []
                              end) fieldnames)
  else Raise ValueError.

Fixpoint csv_rows (fieldnames : list str) (ms : list match_record) : result str :=
  match ms with
  | [] => Ok []
  | m :: ms' =>
      row <- dict_to_list fieldnames m ;;
      rest <- csv_rows fieldnames ms' ;;
      Ok (csv_row row ++ rest)
  end.

(** Lines 179-180: the text written to the file. *)
Definition csv_text (ms : list match_record) : result str :=
  let fieldnames := keys (hd [] ms) in
  rows <- csv_rows fieldnames ms ;;
  Ok (csv_row fieldnames ++ rows).

(** ** [main] *)

Record run := {
  run_console : list output;
  run_trace : list event;
  run_scanned : Z;
  run_matches : list match_record;
  run_pages : list (list message);
  run_cache : option str;
  run_hits : option str;
  run_exit : option Z
}.

Definition OUT : str := lit "hits.csv".

(** The [except Exception] clause: [[FATAL]], the traceback, exit 1. *)
Definition fatal (e : exn) (tr : list event) (l : loop_state) (written : option str) : run :=
  {| run_console := console (st l) ++ [PFatal e];
     run_trace := tr;
     run_scanned := scanned (st l);
     run_matches := matches (st l);
     run_pages := pages_got l;
     run_cache := written;
     run_hits := None;
     run_exit := Some 1%Z |}.

Definition loop_start (con : list output) : loop_state :=
  {| first_page := true; bar := false; total_est := None;
     st := {| scanned := 0; matches := []; console := con |};
     pages_got := [] |}.

(** Lines 176-189; [writable] says whether [hits.csv] can be opened. *)
Definition finish (writable : bool) (tr : list event) (l : loop_state)
    (written : option str) : run :=
  let s := st l in
  match matches s with
  | [] =>
      {| run_console := console s ++ [PDoneNone (scanned s); PNotes];
         run_trace := tr; run_scanned := scanned s; run_matches := [];
         run_pages := pages_got l; run_cache := written;
         run_hits := None; run_exit := Some 0%Z |}
  | ms =>
      if writable then
        match csv_text ms with
        | Raise e => fatal e tr l written
        | Ok text =>
            {| run_console :=
                 console s ++ [PDoneSaved (List.length ms) (scanned s) OUT; PNotes];
               run_trace := tr; run_scanned := scanned s; run_matches := ms;
               run_pages := pages_got l; run_cache := written;
               run_hits := Some text; run_exit := Some 0%Z |}
        end
      else fatal OSError tr l written
  end.

Definition main (cf : cache_file) (cache_writable hits_writable : bool)
    (rs : list response) : run :=
  let t := get_token cf cache_writable in
  let con := [PInfoWindow DAYS_BACK; PInfoCaps MAX_SCAN MAX_RESULTS] ++ tok_console t in
  match tok t with
  | Raise e => fatal e [] (loop_start con) (tok_written t)
  | Ok token =>
      let l0 := loop_start (con ++ [PHeader; PRule]) in
      match fetch_init token with
      | Raise e => fatal e [] l0 (tok_written t)
      | Ok g =>
          match main_loop g rs l0 with
          | (tr, l, Raised e) => fatal e tr l (tok_written t)
          | (tr, l, Waiting) =>
              {| run_console := console (st l); run_trace := tr;
                 run_scanned := scanned (st l); run_matches := matches (st l);
                 run_pages := pages_got l; run_cache := tok_written t;
                 run_hits := None; run_exit := None |}
          | (tr, l, Done) => finish hits_writable tr l (tok_written t)
          end
      end
  end.

(** ** Reading the file back

    The reader used to state the round trip is not part of the program:
    it is the state machine of a CSV reader of the default (excel)
    dialect, fed the lines of the file with their terminators, and the
    zipping of every row with the header row. *)

Inductive rstate :=
| START_RECORD
| START_FIELD
| IN_FIELD
| IN_QUOTED_FIELD
| QUOTE_IN_QUOTED_FIELD
| EAT_CRNL.

Record reader := {
  r_state : rstate;
  r_field : str;
  r_fields : list str
}.

(** A character of a line, or the end of the line. *)
Inductive rchar :=
| Chr (c : char)
| EOL.

Definition rd_reset : reader := {| r_state := START_RECORD; r_field := []; r_fields := [] |}.

Definition save_field (s : rstate) (rd : reader) : reader :=
  {| r_state := s; r_field := []; r_fields := r_fields rd ++ [r_field rd] |}.

Definition add_char (s : rstate) (c : char) (rd : reader) : reader :=
  {| r_state := s; r_field := r_field rd ++ [c]; r_fields := r_fields rd |}.

Definition set_state (s : rstate) (rd : reader) : reader :=
  {| r_state := s; r_field := r_field rd; r_fields := r_fields rd |}.

Definition is_newline (c : char) : bool := ((c =? LF) || (c =? CR))%N.

Definition start_field (rd : reader) (c : rchar) : reader :=
  match c with
  | EOL => save_field START_RECORD rd
  | Chr x =>
      if is_newline x then save_field EAT_CRNL rd
      else if (x =? DQUOTE)%N then set_state IN_QUOTED_FIELD rd
      else if (x =? COMMA)%N then save_field START_FIELD rd
      else add_char IN_FIELD x rd
  end.

Definition parse_process_char (rd : reader) (c : rchar) : result reader :=
  match r_state rd, c with
  | START_RECORD, EOL => Ok rd
  | START_RECORD, Chr x =>
      if is_newline x then Ok (set_state EAT_CRNL rd) else Ok (start_field rd c)
  | START_FIELD, _ => Ok (start_field rd c)
  | IN_FIELD, EOL => Ok (save_field START_RECORD rd)
  | IN_FIELD, Chr x =>
      if is_newline x then Ok (save_field EAT_CRNL rd)
      else if (x =? COMMA)%N then Ok (save_field START_FIELD rd)
      else Ok (add_char IN_FIELD x rd)
  | IN_QUOTED_FIELD, EOL => Ok rd
  | IN_QUOTED_FIELD, Chr x =>
      if (x =? DQUOTE)%N then Ok (set_state QUOTE_IN_QUOTED_FIELD rd)
      else Ok (add_char IN_QUOTED_FIELD x rd)
  | QUOTE_IN_QUOTED_FIELD, EOL => Ok (save_field START_RECORD rd)
  | QUOTE_IN_QUOTED_FIELD, Chr x =>
      if (x =? DQUOTE)%N then Ok (add_char IN_QUOTED_FIELD x rd)
      else if (x =? COMMA)%N then Ok (save_field START_FIELD rd)
      else if is_newline x then Ok (save_field EAT_CRNL rd)
      else Ok (add_char IN_FIELD x rd)
  | EAT_CRNL, EOL => Ok (set_state START_RECORD rd)
  | EAT_CRNL, Chr x => if is_newline x then Ok rd else Raise CsvError
  end.

(** The lines of a file opened with [newline=""] end after a line feed,
    after a carriage return that no line feed follows, and at the end of
    the file. *)
Definition line_ends (c : char) (rest : str) : bool :=
  match rest with
  | [] => true
  | x :: _ => (c =? LF)%N || ((c =? CR)%N && negb (x =? LF)%N)
  end.

(** The rows of the reader: a row is complete when the end of a line
    leaves the machine in [START_RECORD]. *)
Fixpoint read_rows (s : str) (rd : reader) : result (list (list str)) :=
  match s with
  | [] =>
      match r_field rd, r_state rd with
      | [], IN_QUOTED_FIELD => Ok [r_fields (save_field START_RECORD rd)]
      | [], _ => Ok []
      | _ :: _, _ => Ok [r_fields (save_field START_RECORD rd)]
      end
  | c :: s' =>
      rd1 <- parse_process_char rd (Chr c) ;;
      if line_ends c s' then
        rd2 <- parse_process_char rd1 EOL ;;
        match r_state rd2 with
        | START_RECORD =>
            rows <- read_rows s' rd_reset ;;
            Ok (r_fields rd2 :: rows)
        | _ => read_rows s' rd2
        end
      else read_rows s' rd1
  end.

(** [d[k] = v] *)
Fixpoint dict_set {V} (k : str) (v : V) (d : dict V) : dict V :=
  match d with
  | [] => [(k, v)]
  | (k', v') :: d' =>
      if str_eqb k k' then (k', v) :: d' else (k', v') :: dict_set k v d'
  end.

(** A row as a dictionary under the header's keys: a missing value is
    [None]; a row longer than the header is not such a dictionary. *)
Fixpoint zip_row (fieldnames : list str) (row : list str) (d : match_record)
  : option match_record :=
  match fieldnames, row with
  | [], [] => Some d
  | [], _ :: _ => None
  | k :: ks, [] => zip_row ks [] (dict_set k None d)
  | k :: ks, v :: vs => zip_row ks vs (dict_set k (Some v) d)
  end.

Fixpoint zip_rows (fieldnames : list str) (rows : list (list str))
  : option (list match_record) :=
  match rows with
  | [] => Some []
  | [] :: rows' => zip_rows fieldnames rows'
  | row :: rows' =>
      match zip_row fieldnames row [], zip_rows fieldnames rows' with
      | Some d, Some ds => Some (d :: ds)
      | _, _ => None
      end
  end.

(** The records read back from the text of a file. *)
Definition reparse (text : str) : option (list match_record) :=
  match read_rows text rd_reset with
  | Raise _ => None
  | Ok [] => Some []
  | Ok (fieldnames :: rows) => zip_rows fieldnames rows
  end.

(** ** The stated properties, in the words of the specification *)

Definition last_char (s : str) : option char := head (rev s).

(** [w], compared case-insensitively, is the piece [mid] of the text. *)
Definition ci_eq (w mid : str) : Prop :=
  Forall2 (fun p t => lit_match p t = true) w mid.

(** A word boundary lies between [before] and [after]. *)
Definition word_boundary (before after : str) : Prop :=
  is_word_opt (last_char before) <> is_word_opt (head after).

Definition occurs_word (w text : str) : Prop :=
  exists pre mid post,
    text = pre ++ mid ++ post /\ ci_eq w mid
    /\ word_boundary pre (mid ++ post) /\ word_boundary (pre ++ mid) post.

Definition occurs_phrase (p text : str) : Prop :=
  exists pre mid post, text = pre ++ mid ++ post /\ ci_eq p mid.

Definition contains_term (singles phrases : list str) (text : str) : Prop :=
  (exists w, In w singles /\ occurs_word w text)
  \/ (exists p, In p phrases /\ occurs_phrase p text).

Definition contains_action_term : str -> Prop :=
  contains_term CHANGE_SINGLE CHANGE_PHRASE.

Definition contains_target_term : str -> Prop :=
  contains_term (ADDR_SINGLE ++ BANK_SINGLE) (ADDR_PHRASE ++ BANK_PHRASE).

(** The text the classifier sees for a message, and its decision. *)
Definition text_of (msg : message) : str := subj_of msg ++ [LF] ++ prev_of msg.

Definition qual (msg : message) : bool :=
  has_match PAT_CHANGE (text_of msg) && has_match PAT_ADDRBANK (text_of msg).

(** The Match Records of the qualifying messages among [items], in order. *)
Definition hits (items : list message) : list match_record :=
  List.map mk_match (filter qual items).

(** The caps are reached [i] items after the state [s], the items being
    those of [items]. *)
Definition capped_after (s : scan_state) (items : list message) (i : nat) : bool :=
  ((MAX_SCAN <=? scanned s + Z.of_nat i)
   || (MAX_RESULTS <=? Z.of_nat (List.length (matches s ++ hits (firstn i items)))))%Z.

(** The caps are reached once the first [k] items of a stream are scanned
    from the initial state. *)
Definition capped_at (items : list message) (k : nat) : bool :=
  ((MAX_SCAN <=? Z.of_nat k)
   || (MAX_RESULTS <=? Z.of_nat (List.length (hits (firstn k items)))))%Z.

(** ** Auxiliary definitions of the statements and of the proofs *)

(** *** Classifier *)

(** The character before a position, [mid] having been read after [prev]. *)
Definition prev_after (prev : option char) (mid : str) : option char :=
  match last_char mid with
  | Some c => Some c
  | None => prev
  end.

(** *** Scan driver *)

Ltac conjs := repeat match goal with |- _ /\ _ => split end.

(** The line printed for a match, and the lines of the matches among
    [items]. *)
Definition is_hit (o : output) : bool :=
  match o with
  | PHit _ _ _ => true
  | _ => false
  end.

Definition hit_line (msg : message) : output :=
  PHit (or_empty (sender_of msg)) (or_empty (msg_receivedDateTime msg)) (subj_of msg).

Definition hit_lines (items : list message) : list output :=
  List.map hit_line (filter qual items).

Definition printed_hits (con : list output) : list output := filter is_hit con.

(** The state in which the loop asks the generator for a page: every
    item received is scanned and no cap stopped the loop.  [base] are the
    match lines on the console before the loop. *)
Definition asking (base : list output) (l : loop_state) : Prop :=
  scanned (st l) = Z.of_nat (List.length (List.concat (pages_got l)))
  /\ matches (st l) = hits (List.concat (pages_got l))
  /\ (forall k, 0 < k <= List.length (List.concat (pages_got l)) ->
                capped_at (List.concat (pages_got l)) k = false)
  /\ (pages_got l <> [] -> capped (st l) = false)
  /\ printed_hits (console (st l)) = base ++ hit_lines (List.concat (pages_got l)).

(** What holds when the loop is left, in whatever way. *)
Definition left_at (base : list output) (l0 l : loop_state) (e : ending) : Prop :=
  let items := List.concat (pages_got l) in
  let n := Z.to_nat (scanned (st l)) in
  scanned (st l) = Z.of_nat n
  /\ n <= List.length items
  /\ matches (st l) = hits (firstn n items)
  /\ (forall k, 0 < k < n -> capped_at items k = false)
  /\ (n < List.length items -> capped (st l) = true)
  /\ (pages_got l <> [] -> capped (st l) = true ->
      e = Done /\ (n = 0 \/ List.length (List.concat (removelast (pages_got l))) < n))
  /\ (e = Done -> pages_got l <> [])
  /\ (scanned (st l0) <= scanned (st l))%Z
  /\ (exists more, pages_got l = pages_got l0 ++ more
                   /\ (pages_got l0 = [] -> forall p ps, more = p :: ps -> p <> [] -> 0 < n))
  /\ (exists more, matches (st l) = matches (st l0) ++ more)
  /\ printed_hits (console (st l)) = base ++ hit_lines (firstn n items).

(** The console of [main] when the loop is entered. *)
Definition con_at_loop (cf : cache_file) (w : bool) : list output :=
  ([PInfoWindow DAYS_BACK; PInfoCaps MAX_SCAN MAX_RESULTS]
     ++ tok_console (get_token cf w)) ++ [PHeader; PRule].

(** *** Page fetcher *)


(** A character that no decimal integer holds: not a digit, a sign, an
    underscore or white space. *)
Definition foreign_char (c : char) : bool :=
  (c <? 128)%N
  && negb (ascii_isdigit c || (c =? 43)%N || (c =? 45)%N || (c =? 95)%N || c_isspace c).

(** The listing a response delivers, when it is neither a 429 nor an
    error status and its body is JSON. *)
Definition yields (r : response) : option listing :=
  if ((status_code r =? 429)
      || ((400 <=? status_code r) && (status_code r <? 600)))%Z
  then None else body r.

Definition page_of (d : listing) : list message :=
  match value d with Some v => v | None => [] end.

(** The continuation link a listing carries, if any. *)
Definition link_of (d : listing) : option str :=
  match odata_nextLink d with
  | Some (c :: s) => Some (c :: s)
  | _ => None
  end.

(** The total the generator yields with a page. *)
Definition total_of (g : gen_locals) (d : listing) : option Z :=
  if g_first g then odata_count d else g_total_est g.

(** The locals of the generator after it is resumed with a link. *)
Definition follow (g : gen_locals) (d : listing) (link : str) : gen_locals :=
  {| g_url := link; g_params := None; g_headers := g_headers g;
     g_first := false; g_total_est := total_of g d |}.

(** A finite collection as the server serves it: every response
    delivers a listing, and every listing but the last carries a
    continuation link. *)
Inductive serves : list response -> list listing -> Prop :=
| serves_last r d :
    yields r = Some d -> link_of d = None -> serves [r] [d]
| serves_more r d link rs ds :
    yields r = Some d -> link_of d = Some link -> serves rs ds ->
    serves (r :: rs) (d :: ds).

(** The locals with which the successive requests are made, and the
    pairs the generator yields, when the listings are [ds]. *)
Fixpoint gen_chain (g : gen_locals) (ds : list listing) : list gen_locals :=
  match ds with
  | [] => []
  | d :: ds' =>
      g :: match link_of d with
           | Some l => gen_chain (follow g d l) ds'
           | None => []
           end
  end.

Fixpoint yielded (g : gen_locals) (ds : list listing) : list (list message * option Z) :=
  match ds with
  | [] => []
  | d :: ds' =>
      (page_of d, total_of g d)
        :: match link_of d with
           | Some l => yielded (follow g d l) ds'
           | None => []
           end
  end.

Definition get_of (g : gen_locals) : event := EvGet (request_of g).

(** *** CSV file *)

Definition mk_reader (s : rstate) (f : str) (fs : list str) : reader :=
  {| r_state := s; r_field := f; r_fields := fs |}.

(** The reader after the text of a field: the field is read, and the
    next character, a comma or a carriage return, will save it. *)
Definition field_read (s0 : rstate) (f : str) (fs : list str) : reader :=
  if needs_quote f then mk_reader QUOTE_IN_QUOTED_FIELD f fs
  else match f with
       | [] => mk_reader s0 [] fs
       | _ => mk_reader IN_FIELD f fs
       end.

(** What the writer puts in the cells of a record: [None] is written as
    the empty string. *)
Definition values (m : match_record) : list str :=
  List.map (fun kv => or_empty (snd kv)) m.

(** A record as the file gives it back: every value is a string. *)
Definition blank_none (m : match_record) : match_record :=
  List.map (fun kv => (fst kv, Some (or_empty (snd kv)))) m.

(** The text of the file for the records [ms]: the header row, then one
    row for each record. *)
Definition file_text (ms : list match_record) : str :=
  csv_row match_keys ++ List.concat (List.map (fun m => csv_row (values m)) ms).

(** No carriage return and no line feed in the string. *)
Definition one_line (s : str) : bool := forallb (fun c => negb (is_newline c)) s.

(** The lines of a text, as the ends of lines count them. *)
Fixpoint count_lines (s : str) : nat :=
  match s with
  | [] => 0
  | c :: s' => (if line_ends c s' then 1 else 0) + count_lines s'
  end.

(** ** Proofs: the classifier *)

Lemma last_char_app (a b : str) : last_char (a ++ b) = prev_after (last_char a) b.
Proof.
  unfold prev_after, last_char. rewrite rev_app_distr.
  destruct (rev b); reflexivity.
Qed.

Lemma prev_after_cons (prev : option char) (c : char) (s : str) :
  prev_after prev (c :: s) = prev_after (Some c) s.
Proof.
  unfold prev_after, last_char. simpl.
  destruct (rev s) eqn:E; reflexivity.
Qed.

Lemma match_atoms_escape (w : str) (b : branch) :
  forall prev rest,
    is_some (match_atoms (escape w ++ b) prev rest) = true <->
    exists mid post,
      rest = mid ++ post /\ ci_eq w mid
      /\ is_some (match_atoms b (prev_after prev mid) post) = true.
Proof.
  induction w as [|p w IH]; intros prev rest; simpl.
  - split.
    + intros H. exists [], rest. repeat split; [constructor | exact H].
    + intros (mid & post & -> & Hci & H). inversion Hci; subst. exact H.
  - destruct rest as [|t rest'].
    + split; [discriminate|].
      intros (mid & post & E & Hci & _). inversion Hci; subst. discriminate.
    + destruct (lit_match p t) eqn:Hm.
      * split.
        -- intros H.
           assert (H' : is_some (match_atoms (escape w ++ b) (Some t) rest') = true)
             by (destruct (match_atoms (escape w ++ b) (Some t) rest'); [reflexivity | discriminate]).
           apply IH in H'. destruct H' as (mid & post & -> & Hci & H').
           exists (t :: mid), post. repeat split.
           ++ constructor; assumption.
           ++ rewrite prev_after_cons. exact H'.
        -- intros (mid & post & E & Hci & H). inversion Hci; subst.
           injection E as -> ->. rewrite prev_after_cons in H.
           assert (H' : is_some (match_atoms (escape w ++ b) (Some y) (l' ++ post)) = true)
             by (apply IH; eauto).
           destruct (match_atoms (escape w ++ b) (Some y) (l' ++ post));
             [reflexivity | discriminate].
      * split; [discriminate|].
        intros (mid & post & E & Hci & _). inversion Hci; subst.
        injection E as -> ->. congruence.
Qed.

Lemma at_boundary_spec (pre rest : str) :
  at_boundary (last_char pre) rest = true <-> word_boundary pre rest.
Proof.
  unfold at_boundary, word_boundary.
  destruct (is_word_opt (last_char pre)), (is_word_opt (head rest)); simpl;
    split; congruence.
Qed.

Lemma is_some_true {A} (o : option A) : is_some o = true <-> exists a, o = Some a.
Proof.
  destruct o; simpl; split; eauto; try discriminate.
  intros [a H]; discriminate.
Qed.

(** The branch [\bw\b] at the position after [pre]. *)
Lemma word_branch_spec (w pre rest : str) :
  is_some (match_atoms (AWordB :: escape w ++ [AWordB]) (last_char pre) rest) = true <->
  exists mid post,
    rest = mid ++ post /\ ci_eq w mid
    /\ word_boundary pre rest /\ word_boundary (pre ++ mid) post.
Proof.
  cbn [match_atoms].
  destruct (at_boundary (last_char pre) rest) eqn:Hb.
  - rewrite match_atoms_escape. apply at_boundary_spec in Hb.
    split; intros (mid & post & -> & Hci & H); exists mid, post; repeat split; trivial.
    + apply at_boundary_spec. rewrite last_char_app.
      cbn [match_atoms] in H.
      destruct (at_boundary (prev_after (last_char pre) mid) post); [reflexivity | discriminate].
    + destruct H as [_ H]. apply at_boundary_spec in H. rewrite last_char_app in H.
      cbn [match_atoms]. rewrite H. reflexivity.
  - split; [discriminate|].
    intros (mid & post & _ & _ & H & _). apply at_boundary_spec in H. congruence.
Qed.

(** A phrase branch at any position. *)
Lemma phrase_branch_spec (p : str) (prev : option char) (rest : str) :
  is_some (match_atoms (escape p) prev rest) = true <->
  exists mid post, rest = mid ++ post /\ ci_eq p mid.
Proof.
  rewrite <- (app_nil_r (escape p)), match_atoms_escape.
  split.
  - intros (mid & post & E & Hci & _). exists mid, post. split; assumption.
  - intros (mid & post & E & Hci). exists mid, post. repeat split; assumption.
Qed.

Lemma match_alt_spec (re : regex) (prev : option char) (rest : str) :
  is_some (match_alt re prev rest) = true <->
  exists b, In b re /\ is_some (match_atoms b prev rest) = true.
Proof.
  induction re as [|b re IH]; simpl.
  - split; [discriminate | intros (b & [] & _)].
  - destruct (match_atoms b prev rest) eqn:E.
    + split; [|reflexivity]. intros _. exists b. rewrite E. auto.
    + rewrite IH. split.
      * intros (b' & Hin & H). eauto.
      * intros (b' & [<- | Hin] & H); [rewrite E in H; discriminate | eauto].
Qed.

Lemma search_from_spec (re : regex) :
  forall rest pos pre,
    is_some (search_from re pos (last_char pre) rest) = true <->
    exists skipped post,
      rest = skipped ++ post
      /\ is_some (match_alt re (last_char (pre ++ skipped)) post) = true.
Proof.
  induction rest as [|c rest IH]; intros pos pre; cbn [search_from].
  - destruct (match_alt re (last_char pre) []) eqn:E.
    + split; [|reflexivity]. intros _. exists [], []. rewrite (app_nil_r pre), E. auto.
    + split; [discriminate|].
      intros (skipped & post & Heq & H).
      symmetry in Heq. apply app_eq_nil in Heq. destruct Heq as [-> ->].
      rewrite (app_nil_r pre), E in H. discriminate.
  - destruct (match_alt re (last_char pre) (c :: rest)) eqn:E.
    + split; [|reflexivity]. intros _. exists [], (c :: rest).
      rewrite (app_nil_r pre), E. auto.
    + replace (Some c) with (last_char (pre ++ [c]))
        by (unfold last_char; rewrite rev_app_distr; reflexivity).
      rewrite IH. split.
      * intros (skipped & post & -> & H). exists (c :: skipped), post.
        split; [reflexivity|]. rewrite <- app_assoc in H. exact H.
      * intros (skipped & post & Heq & H). destruct skipped as [|c' skipped].
        -- simpl in Heq. subst post. rewrite (app_nil_r pre), E in H. discriminate.
        -- injection Heq as <- ->. exists skipped, post.
           split; [reflexivity|]. rewrite <- app_assoc. exact H.
Qed.

(** [search] finds a match exactly when a term of the pattern occurs. *)
Lemma search_compile_terms (singles phrases : list str) (re : regex) (text : str) :
  _compile_terms singles phrases = Some re ->
  (is_some (search re text) = true <-> contains_term singles phrases text).
Proof.
  intros Hre.
  assert (Hparts : re = List.map (fun t => AWordB :: escape t ++ [AWordB]) singles
                        ++ List.map escape phrases).
  { unfold _compile_terms in Hre.
    destruct (List.map (fun t => AWordB :: escape t ++ [AWordB]) singles
              ++ List.map escape phrases); congruence. }
  clear Hre. unfold search.
  change (@None char) with (last_char []). rewrite search_from_spec.
  unfold contains_term, occurs_word, occurs_phrase. split.
  - intros (pre & rest & -> & H). apply match_alt_spec in H.
    destruct H as (b & Hin & H). subst re. apply in_app_or in Hin.
    destruct Hin as [Hin | Hin]; apply in_map_iff in Hin; destruct Hin as (t & <- & Hin).
    + left. exists t. split; [exact Hin|]. simpl in H.
      apply word_branch_spec in H. destruct H as (mid & post & -> & Hci & H1 & H2).
      exists pre, mid, post. auto.
    + right. exists t. split; [exact Hin|].
      apply phrase_branch_spec in H. destruct H as (mid & post & -> & Hci).
      exists pre, mid, post. auto.
  - intros [(w & Hin & pre & mid & post & -> & Hci & H1 & H2)
           | (p & Hin & pre & mid & post & -> & Hci)];
      exists pre, (mid ++ post); (split; [reflexivity|]); apply match_alt_spec; simpl.
    + exists (AWordB :: escape w ++ [AWordB]). split.
      * subst re. apply in_or_app. left.
        apply (in_map (fun t => AWordB :: escape t ++ [AWordB])). exact Hin.
      * apply word_branch_spec. exists mid, post. auto.
    + exists (escape p). split.
      * subst re. apply in_or_app. right. apply in_map. exact Hin.
      * apply phrase_branch_spec. exists mid, post. auto.
Qed.

Lemma compile_terms_some (w : str) (singles phrases : list str) :
  exists re, _compile_terms (w :: singles) phrases = Some re.
Proof. unfold _compile_terms. simpl. eauto. Qed.

Lemma has_match_spec (singles phrases : list str) (w : str) (text : str) :
  has_match (_compile_terms (w :: singles) phrases) text = true <->
  contains_term (w :: singles) phrases text.
Proof.
  destruct (compile_terms_some w singles phrases) as [re Hre].
  rewrite Hre. simpl. apply search_compile_terms. exact Hre.
Qed.

(** Both patterns exist, so [qualifies] never raises and its value is the
    conjunction of the two searches. *)
Lemma qualifies_value (subject preview : option str) :
  qualifies subject preview =
  Ok (has_match PAT_CHANGE (or_empty subject ++ [LF] ++ or_empty preview)
      && has_match PAT_ADDRBANK (or_empty subject ++ [LF] ++ or_empty preview)).
Proof.
  unfold qualifies, PAT_CHANGE, PAT_ADDRBANK.
  destruct (compile_terms_some (lit "change") (tl CHANGE_SINGLE) CHANGE_PHRASE) as [rc Hc].
  destruct (compile_terms_some (lit "address") BANK_SINGLE (ADDR_PHRASE ++ BANK_PHRASE))
    as [ra Ha].
  change (lit "change" :: tl CHANGE_SINGLE) with CHANGE_SINGLE in Hc.
  change (lit "address" :: BANK_SINGLE) with (ADDR_SINGLE ++ BANK_SINGLE) in Ha.
  rewrite Hc, Ha. simpl.
  destruct (search rc _); simpl; [|reflexivity].
  destruct (search ra _); reflexivity.
Qed.

Lemma no_target_in_exchange_rate :
  has_match PAT_ADDRBANK (lit "my exchange rate" ++ [LF]) = false.
Proof. vm_compute. reflexivity. Qed.

Lemma no_target_in_newline : has_match PAT_ADDRBANK [LF] = false.
Proof. vm_compute. reflexivity. Qed.

Lemma change_not_in_exchange :
  ~ occurs_word (lit "change") (lit "my exchange rate" ++ [LF]).
Proof.
  intros H.
  assert (Hc : contains_term [lit "change"] [] (lit "my exchange rate" ++ [LF])).
  { left. exists (lit "change"). split; [left; reflexivity | exact H]. }
  apply has_match_spec in Hc. vm_compute in Hc. discriminate.
Qed.

(** C1. For every subject and preview, [qualifies] returns a boolean, and
    it returns true exactly when the text "subject, newline, preview"
    contains an action term and a target term: a single word between two
    word boundaries, a phrase as a literal piece of the text, both compared
    case-insensitively.  In particular [qualifies("my exchange rate", "")]
    is false, and the word "change" does not occur in that text although
    "exchange" contains it. *)
Theorem qualifies_iff_both_term_sets (subject preview : str) :
  (exists b, qualifies (Some subject) (Some preview) = Ok b)
  /\ (qualifies (Some subject) (Some preview) = Ok true <->
      contains_action_term (subject ++ [LF] ++ preview)
      /\ contains_target_term (subject ++ [LF] ++ preview))
  /\ qualifies (Some (lit "my exchange rate")) (Some (lit "")) = Ok false
  /\ ~ occurs_word (lit "change") (lit "my exchange rate" ++ [LF] ++ lit "").
Proof.
  split; [|split; [|split]].
  - rewrite qualifies_value. eauto.
  - rewrite qualifies_value. cbn [or_empty].
    unfold contains_action_term, contains_target_term.
    change CHANGE_SINGLE with (lit "change" :: tl CHANGE_SINGLE).
    change (ADDR_SINGLE ++ BANK_SINGLE) with (lit "address" :: BANK_SINGLE).
    rewrite <- !has_match_spec.
    change (lit "change" :: tl CHANGE_SINGLE) with CHANGE_SINGLE.
    fold PAT_CHANGE.
    change (_compile_terms (lit "address" :: BANK_SINGLE) (ADDR_PHRASE ++ BANK_PHRASE))
      with PAT_ADDRBANK.
    split.
    + intros H. injection H as H. apply andb_true_iff in H. exact H.
    + intros [H1 H2]. rewrite H1, H2. reflexivity.
  - rewrite qualifies_value. cbn [or_empty].
    change (lit "my exchange rate" ++ [LF] ++ lit "") with (lit "my exchange rate" ++ [LF]).
    rewrite no_target_in_exchange_rate, andb_false_r. reflexivity.
  - exact change_not_in_exchange.
Qed.

(** The two other examples of the specification: an action term and a
    target term give true, an action term alone gives false. *)
Example qualifies_billing_address :
  qualifies (Some (lit "Please change our billing address")) (Some (lit "")) = Ok true.
Proof.
  rewrite qualifies_value. cbn [or_empty]. f_equal. apply andb_true_iff. split.
  - unfold PAT_CHANGE. change CHANGE_SINGLE with (lit "change" :: tl CHANGE_SINGLE).
    apply has_match_spec. left. exists (lit "change"). split; [left; reflexivity|].
    exists (lit "Please "), (lit "change"), (lit " our billing address" ++ [LF]).
    split; [reflexivity|]. split.
    + repeat constructor.
    + split; unfold word_boundary; vm_compute; discriminate.
  - vm_compute. reflexivity.
Qed.

Example qualifies_change_of_plans :
  qualifies (Some (lit "change of plans")) (Some (lit "see you soon")) = Ok false.
Proof.
  rewrite qualifies_value. cbn [or_empty].
  replace (has_match PAT_ADDRBANK (lit "change of plans" ++ [LF] ++ lit "see you soon"))
    with false by (vm_compute; reflexivity).
  rewrite andb_false_r. reflexivity.
Qed.

(** C8. A subject or preview that is absent ([None]) is read as the empty
    string, and [qualifies] returns a boolean whatever the two fields are;
    [qualifies(None, None)] evaluates to false without an error. *)
Theorem qualifies_missing_fields (subject preview : option str) :
  (exists b, qualifies subject preview = Ok b)
  /\ qualifies None preview = qualifies (Some []) preview
  /\ qualifies subject None = qualifies subject (Some [])
  /\ qualifies None None = Ok false.
Proof.
  split; [|split; [|split]].
  - rewrite qualifies_value. eauto.
  - rewrite !qualifies_value. reflexivity.
  - rewrite !qualifies_value. reflexivity.
  - rewrite qualifies_value. cbn [or_empty app].
    rewrite no_target_in_newline, andb_false_r. reflexivity.
Qed.

(** ** Proofs: the scan driver *)

Lemma hits_cons (msg : message) (items : list message) :
  hits (msg :: items) = hits [msg] ++ hits items.
Proof. unfold hits. simpl. destruct (qual msg); reflexivity. Qed.

Lemma hits_app (a b : list message) : hits (a ++ b) = hits a ++ hits b.
Proof. unfold hits. rewrite filter_app, map_app. reflexivity. Qed.

Lemma hit_lines_cons (msg : message) (items : list message) :
  hit_lines (msg :: items) = hit_lines [msg] ++ hit_lines items.
Proof. unfold hit_lines. simpl. destruct (qual msg); reflexivity. Qed.

Lemma hit_lines_app (a b : list message) : hit_lines (a ++ b) = hit_lines a ++ hit_lines b.
Proof. unfold hit_lines. rewrite filter_app, map_app. reflexivity. Qed.

(** One message: the counter grows by one; the record of the message is
    appended and its line is printed when it qualifies, and only then. *)
Lemma process_msg_value (b : bool) (tot : option Z) (msg : message) (s : scan_state) :
  exists s',
    process_msg b tot msg s = Ok s'
    /\ scanned s' = (scanned s + 1)%Z
    /\ matches s' = matches s ++ hits [msg]
    /\ printed_hits (console s') = printed_hits (console s) ++ hit_lines [msg].
Proof.
  unfold process_msg, classify. rewrite qualifies_value. cbn [bind or_empty].
  fold (text_of msg). fold (qual msg). unfold hits, hit_lines, printed_hits. cbn [filter].
  destruct (qual msg); eexists; (split; [reflexivity|]);
    cbn [scanned matches console count_one List.map];
    (split; [reflexivity|]); (split; [try reflexivity; symmetry; apply app_nil_r|]).
  - rewrite filter_app. cbn. f_equal.
    destruct b; [reflexivity|]. destruct (_ =? 0)%Z; [|reflexivity].
    rewrite filter_app. cbn. apply app_nil_r.
  - rewrite app_nil_r.
    destruct b; [reflexivity|]. destruct (_ =? 0)%Z; [|reflexivity].
    rewrite filter_app. cbn. apply app_nil_r.
Qed.

Lemma capped_is_capped_after (s s' : scan_state) (items : list message) (j : nat) :
  scanned s' = (scanned s + Z.of_nat j)%Z ->
  matches s' = matches s ++ hits (firstn j items) ->
  capped s' = capped_after s items j.
Proof. intros H1 H2. unfold capped, capped_after. rewrite H1, H2. reflexivity. Qed.

(** The inner loop: it scans the first [j] items of the page, stops at the
    first item after which a cap is reached, and leaves items unread only
    then. *)
Lemma scan_page_spec (b : bool) (tot : option Z) (page : list message) :
  forall s, exists j s',
    scan_page b tot page s = Ok s'
    /\ j <= List.length page
    /\ scanned s' = (scanned s + Z.of_nat j)%Z
    /\ matches s' = matches s ++ hits (firstn j page)
    /\ (forall i, 0 < i < j -> capped_after s page i = false)
    /\ (j < List.length page -> capped s' = true)
    /\ (page <> [] -> 0 < j)
    /\ printed_hits (console s') = printed_hits (console s) ++ hit_lines (firstn j page).
Proof.
  induction page as [|msg rest IH]; intros s.
  - exists 0, s. cbn. conjs; try lia; try congruence.
    + unfold hits. cbn. symmetry. apply app_nil_r.
    + unfold hit_lines. cbn. symmetry. apply app_nil_r.
  - cbn [scan_page].
    destruct (process_msg_value b tot msg s) as (s1 & -> & Hs & Hm & Hc).
    cbn [bind]. destruct (capped s1) eqn:Hcap.
    + exists 1, s1. cbn [List.length firstn]. conjs; try lia; trivial.
    + destruct (IH s1) as (j & s' & -> & Hj & Hs' & Hm' & Hnc & Hleft & _ & Hc').
      exists (S j), s'. cbn [List.length firstn]. conjs; try lia.
      * reflexivity.
      * rewrite Hm', Hm, (hits_cons msg (firstn j rest)), app_assoc. reflexivity.
      * intros i Hi. destruct i as [|i]; [lia|].
        destruct i as [|i].
        -- rewrite <- Hcap. symmetry. apply capped_is_capped_after.
           ++ rewrite Hs. reflexivity.
           ++ exact Hm.
        -- specialize (Hnc (S i) ltac:(lia)).
           unfold capped_after in *.
           change (firstn (S (S i)) (msg :: rest)) with (msg :: firstn (S i) rest).
           rewrite (hits_cons msg (firstn (S i) rest)), app_assoc, <- Hm.
           rewrite Hs in Hnc.
           replace (scanned s + Z.of_nat (S (S i)))%Z
             with (scanned s + 1 + Z.of_nat (S i))%Z by lia.
           exact Hnc.
      * intros H. apply Hleft. lia.
      * rewrite Hc', Hc, (hit_lines_cons msg (firstn j rest)), app_assoc. reflexivity.
Qed.

Lemma capped_at_state (s : scan_state) (items : list message) (k : nat) :
  scanned s = Z.of_nat k -> matches s = hits (firstn k items) ->
  capped s = capped_at items k.
Proof. intros H1 H2. unfold capped, capped_at. rewrite H1, H2. reflexivity. Qed.

Lemma asking_left (base : list output) (l : loop_state) (e : ending) :
  asking base l -> e <> Done -> left_at base l l e.
Proof.
  intros (Hs & Hm & Hk & Hc & Hh) He. unfold left_at. cbv zeta.
  rewrite Hs, Nat2Z.id. conjs; trivial.
  - rewrite firstn_all. exact Hm.
  - intros k Hk'. apply Hk. lia.
  - lia.
  - intros Hp Hcap. rewrite (Hc Hp) in Hcap. discriminate.
  - intros; contradiction.
  - lia.
  - exists []. split; [symmetry; apply app_nil_r | discriminate].
  - exists []. symmetry; apply app_nil_r.
  - rewrite firstn_all. exact Hh.
Qed.

Lemma page_body_spec (page : list message) (total : option Z) (l : loop_state) :
  exists j l1,
    page_body page total l = Ok (l1, capped (st l1))
    /\ pages_got l1 = pages_got l ++ [page]
    /\ j <= List.length page
    /\ scanned (st l1) = (scanned (st l) + Z.of_nat j)%Z
    /\ matches (st l1) = matches (st l) ++ hits (firstn j page)
    /\ (forall i, 0 < i < j -> capped_after (st l) page i = false)
    /\ (j < List.length page -> capped (st l1) = true)
    /\ (page <> [] -> 0 < j)
    /\ printed_hits (console (st l1))
       = printed_hits (console (st l)) ++ hit_lines (firstn j page).
Proof.
  unfold page_body.
  set (l1 := if first_page l then _ else l).
  assert (Hst : st l1 = st l) by (unfold l1; destruct (first_page l); reflexivity).
  assert (Hpg : pages_got l1 = pages_got l) by (unfold l1; destruct (first_page l); reflexivity).
  destruct (scan_page_spec (bar l1) (total_est l1) page (st l1))
    as (j & s' & -> & H). cbn [bind].
  exists j, {| first_page := false; bar := bar l1; total_est := total_est l1;
               st := s'; pages_got := pages_got l1 ++ [page] |}.
  split; [reflexivity|]. cbn [st pages_got].
  rewrite Hpg. rewrite Hst in H. split; [reflexivity | exact H].
Qed.

Lemma capped_at_app_le (items page : list message) (k : nat) :
  k <= List.length items -> capped_at (items ++ page) k = capped_at items k.
Proof.
  intros Hk. unfold capped_at. rewrite firstn_app.
  replace (k - List.length items) with 0 by lia.
  cbn [firstn]. rewrite app_nil_r. reflexivity.
Qed.

Lemma capped_at_app_gt (s : scan_state) (items page : list message) (i : nat) :
  scanned s = Z.of_nat (List.length items) -> matches s = hits items ->
  capped_at (items ++ page) (List.length items + i) = capped_after s page i.
Proof.
  intros Hs Hm. unfold capped_at, capped_after.
  rewrite firstn_app_2, hits_app, Hs, Hm. f_equal; f_equal; lia.
Qed.

Lemma concat_snoc {A} (ps : list (list A)) (p : list A) :
  List.concat (ps ++ [p]) = List.concat ps ++ p.
Proof. rewrite concat_app. cbn. rewrite app_nil_r. reflexivity. Qed.

(** After a page: either a cap is reached and the loop is left, or the
    loop asks for the next page. *)
Lemma page_then_capped (base : list output) (page : list message)
    (l l1 : loop_state) (j : nat) :
  asking base l ->
  pages_got l1 = pages_got l ++ [page] ->
  j <= List.length page ->
  scanned (st l1) = (scanned (st l) + Z.of_nat j)%Z ->
  matches (st l1) = matches (st l) ++ hits (firstn j page) ->
  (forall i, 0 < i < j -> capped_after (st l) page i = false) ->
  (page <> [] -> 0 < j) ->
  printed_hits (console (st l1))
    = printed_hits (console (st l)) ++ hit_lines (firstn j page) ->
  (j < List.length page -> capped (st l1) = true) ->
  left_at base l l1 Done /\ (capped (st l1) = false -> asking base l1).
Proof.
  intros (Hs & Hm & Hk & Hc & Hh) Hp Hj Hs1 Hm1 Hnc Hne Hpr Hleft.
  set (items := List.concat (pages_got l)) in *.
  assert (Hitems : List.concat (pages_got l1) = items ++ page)
    by (rewrite Hp; apply concat_snoc).
  assert (Hn : Z.to_nat (scanned (st l1)) = List.length items + j)
    by (rewrite Hs1, Hs; lia).
  assert (Hfirst : firstn (List.length items + j) (items ++ page) = items ++ firstn j page)
    by apply firstn_app_2.
  assert (Hbefore : forall k, 0 < k < List.length items + j ->
                              capped_at (items ++ page) k = false).
  { intros k Hk'. destruct (Nat.le_gt_cases k (List.length items)) as [Hle | Hgt].
    - rewrite capped_at_app_le by exact Hle. apply Hk. lia.
    - replace k with (List.length items + (k - List.length items)) by lia.
      rewrite (capped_at_app_gt (st l)) by assumption. apply Hnc. lia. }
  split.
  { unfold left_at. cbv zeta. rewrite Hitems, Hn. conjs.
    - rewrite Hs1, Hs. lia.
    - rewrite length_app. lia.
    - rewrite Hfirst, hits_app, Hm1, Hm. reflexivity.
    - exact Hbefore.
    - intros H. apply Hleft. rewrite length_app in H. lia.
    - intros _ Hcap. split; [reflexivity|].
      rewrite Hp, removelast_last. fold items.
      destruct j as [|j]; [|right; lia].
      left. destruct (pages_got l) as [|p ps] eqn:Epg.
      + reflexivity.
      + assert (Hcl : capped (st l) = false) by (apply Hc; discriminate).
        assert (Hsame : capped (st l1) = capped (st l)).
        { unfold capped. rewrite Hs1, Hm1. cbn [firstn]. unfold hits. cbn.
          rewrite app_nil_r, Z.add_0_r. reflexivity. }
        congruence.
    - intros _. rewrite Hp. destruct (pages_got l); discriminate.
    - rewrite Hs1. lia.
    - exists [page]. split; [exact Hp|].
      intros _ p ps E Hp0. injection E as <- <-. specialize (Hne Hp0). lia.
    - eexists. exact Hm1.
    - rewrite Hfirst, hit_lines_app, Hpr, Hh, app_assoc. reflexivity. }
  intros Hcap.
  assert (Hjl : j = List.length page).
  { destruct (Nat.eq_dec j (List.length page)) as [E|E]; [exact E|].
    rewrite Hleft in Hcap by lia. discriminate. }
  unfold asking. rewrite Hitems. conjs.
  - rewrite Hs1, Hs, length_app. lia.
  - rewrite Hm1, Hm, hits_app, Hjl, firstn_all. reflexivity.
  - intros k Hk'. rewrite length_app in Hk'.
    destruct (Nat.eq_dec k (List.length items + j)) as [-> | Hneq].
    + rewrite <- Hcap. symmetry. apply capped_at_state.
      * rewrite Hs1, Hs. lia.
      * rewrite Hfirst, hits_app, Hm1, Hm. reflexivity.
    + apply Hbefore. lia.
  - intros _. exact Hcap.
  - rewrite Hpr, Hh, hit_lines_app, Hjl, firstn_all, app_assoc. reflexivity.
Qed.

(** A later stop seen from an earlier state. *)
Lemma left_at_later (base : list output) (page : list message)
    (l l1 l' : loop_state) (e : ending) (j : nat) :
  (0 <= scanned (st l))%Z ->
  pages_got l1 = pages_got l ++ [page] ->
  scanned (st l1) = (scanned (st l) + Z.of_nat j)%Z ->
  (page <> [] -> 0 < j) ->
  (exists more, matches (st l1) = matches (st l) ++ more) ->
  left_at base l1 l' e -> left_at base l l' e.
Proof.
  intros H0 Hp Hs Hne (mm & Hm).
  unfold left_at. cbv zeta.
  intros (H1 & H2 & H3 & H4 & H5 & H6 & H7 & H8 & (more & H9 & _) & (mm' & H10) & H11).
  conjs; trivial.
  - lia.
  - exists (page :: more). split.
    + rewrite H9, Hp, <- app_assoc. reflexivity.
    + intros _ p ps E Hp0. injection E as <- <-. specialize (Hne Hp0). lia.
  - exists (mm ++ mm'). rewrite H10, Hm, app_assoc. reflexivity.
Qed.

(** The invariant of the outer loop. *)
Lemma main_loop_inv (base : list output) (rs : list response) :
  forall g l tr l' e,
    asking base l -> main_loop g rs l = (tr, l', e) -> left_at base l l' e.
Proof.
  induction rs as [|r rs IH]; intros g l tr l' e Hask; cbn [main_loop].
  - intros H. injection H as <- <- <-. apply asking_left; [exact Hask | discriminate].
  - destruct (fetch_step g r) as [n | ex | page total g' data].
    + destruct (main_loop g rs l) as [[tr1 l1] e1] eqn:E.
      intros H. injection H as <- <- <-. eapply IH; eauto.
    + intros H. injection H as <- <- <-. apply asking_left; [exact Hask | discriminate].
    + destruct (page_body_spec page total l)
        as (j & l1 & -> & Hp & Hj & Hs & Hm & Hnc & Hleft & Hne & Hpr).
      destruct (@page_then_capped base page l l1 j Hask Hp Hj Hs Hm Hnc Hne Hpr Hleft)
        as [Hleft1 Hnocap].
      destruct (capped (st l1)) eqn:Ecap.
      * intros H. injection H as <- <- <-. exact Hleft1.
      * specialize (Hnocap eq_refl).
        destruct (resume g' data) as [g''|].
        -- destruct (main_loop g'' rs l1) as [[tr1 l2] e1] eqn:E.
           intros H. injection H as <- <- <-.
           apply (@left_at_later base page l l1 l2 e1 j); eauto.
           destruct Hask as [-> _]. lia.
        -- intros H. injection H as <- <- <-. exact Hleft1.
Qed.

Lemma asking_start (con : list output) : asking (printed_hits con) (loop_start con).
Proof.
  unfold asking, loop_start. cbn. conjs; trivial.
  - intros k Hk. lia.
  - congruence.
  - unfold hit_lines. cbn. symmetry. apply app_nil_r.
Qed.

(** What holds of the loop of [main], started on an empty state. *)
Lemma main_loop_from_start (g : gen_locals) (rs : list response) (con : list output)
    (tr : list event) (l : loop_state) (e : ending) :
  main_loop g rs (loop_start con) = (tr, l, e) ->
  left_at (printed_hits con) (loop_start con) l e.
Proof. apply main_loop_inv, asking_start. Qed.




(** ** Proofs: [main] *)





(** The two ways a run can go: it fails before the loop, or it runs the
    loop and reports the state the loop leaves. *)
Lemma main_cases (cf : cache_file) (cw hw : bool) (rs : list response) :
  (run_pages (main cf cw hw rs) = []
   /\ run_scanned (main cf cw hw rs) = 0%Z
   /\ run_matches (main cf cw hw rs) = []
   /\ run_trace (main cf cw hw rs) = []
   /\ run_hits (main cf cw hw rs) = None
   /\ run_exit (main cf cw hw rs) = Some 1%Z)
  \/ exists token g tr l e,
       tok (get_token cf cw) = Ok token
       /\ fetch_init token = Ok g
       /\ main_loop g rs (loop_start (con_at_loop cf cw)) = (tr, l, e)
       /\ run_pages (main cf cw hw rs) = pages_got l
       /\ run_scanned (main cf cw hw rs) = scanned (st l)
       /\ run_matches (main cf cw hw rs) = matches (st l)
       /\ run_trace (main cf cw hw rs) = tr
       /\ (exists tail, run_console (main cf cw hw rs) = console (st l) ++ tail)
       /\ (run_exit (main cf cw hw rs) = None <-> e = Waiting)
       /\ (run_exit (main cf cw hw rs) = Some 0%Z ->
           e = Done
           /\ run_hits (main cf cw hw rs)
              = match matches (st l) with
                | [] => None
                | ms => match csv_text ms with Ok text => Some text | Raise _ => None end
                end
           /\ run_console (main cf cw hw rs)
              = console (st l)
                ++ [match matches (st l) with
                    | [] => PDoneNone (scanned (st l))
                    | ms => PDoneSaved (List.length ms) (scanned (st l)) OUT
                    end; PNotes]).
Proof.
  unfold main. fold (con_at_loop cf cw).
  destruct (tok (get_token cf cw)) as [token|ex] eqn:Etok.
  2: { left. cbn. auto 10. }
  destruct (fetch_init token) as [g|ex] eqn:Einit.
  2: { left. cbn. auto 10. }
  right.
  destruct (main_loop g rs (loop_start (con_at_loop cf cw))) as [[tr l] e] eqn:Eloop.
  exists token, g, tr, l, e.
  split; [reflexivity|]. split; [exact Einit|]. split; [exact Eloop|].
  clear Eloop.
  assert (Hnil : exists tail, console (st l) = console (st l) ++ tail)
    by (exists []; symmetry; apply app_nil_r).
  destruct e as [|ex|]; [unfold finish; destruct (matches (st l)) as [|m ms] eqn:Em;
                         [|destruct hw; [destruct (csv_text (m :: ms)) eqn:Ecsv|]]| |];
    cbn; try rewrite Em;
    conjs; eauto; try (split; intros; congruence); try discriminate; try congruence.
Qed.






(** ** Proofs: the page fetcher *)

Lemma foreign_not_space (c : char) : foreign_char c = true -> int_space c = false.
Proof.
  unfold foreign_char, int_space. intros H. apply andb_true_iff in H.
  destruct H as [-> H]. apply negb_true_iff in H.
  apply orb_false_iff in H. exact (proj2 H).
Qed.

Lemma foreign_not_digit (c : char) : foreign_char c = true -> int_digit c = None.
Proof.
  unfold foreign_char, int_digit. intros H. apply andb_true_iff in H.
  destruct H as [-> H]. apply negb_true_iff in H.
  repeat (apply orb_false_iff in H; destruct H as [H ?]). rewrite H. reflexivity.
Qed.

Lemma foreign_not_underscore (c : char) : foreign_char c = true -> (c =? 95)%N = false.
Proof.
  unfold foreign_char. intros H. apply andb_true_iff in H.
  destruct H as [_ H]. apply negb_true_iff in H.
  repeat (apply orb_false_iff in H; destruct H as [H ?]). assumption.
Qed.

Lemma foreign_not_sign (c : char) :
  foreign_char c = true -> (c =? 43)%N = false /\ (c =? 45)%N = false.
Proof.
  unfold foreign_char. intros H. apply andb_true_iff in H.
  destruct H as [_ H]. apply negb_true_iff in H.
  repeat (apply orb_false_iff in H; destruct H as [H ?]). auto.
Qed.

Lemma skip_space_foreign (s : str) :
  existsb foreign_char s = true -> existsb foreign_char (skip_space s) = true.
Proof.
  induction s as [|c s IH]; cbn; [trivial|].
  destruct (int_space c) eqn:E; [|trivial].
  intros H. apply orb_true_iff in H. destruct H as [H | H]; [|auto].
  apply foreign_not_space in H. congruence.
Qed.

Lemma skip_space_nil_foreign (s : str) :
  existsb foreign_char s = true -> skip_space s <> [].
Proof.
  intros H E. apply skip_space_foreign in H. rewrite E in H. discriminate.
Qed.

Lemma scan_digits_foreign (s : str) :
  forall us acc n,
    existsb foreign_char s = true ->
    match scan_digits s us acc n with
    | Some (_, _, rest) => existsb foreign_char rest = true
    | None => True
    end.
Proof.
  induction s as [|c s IH]; intros us acc n; cbn [scan_digits existsb]; [discriminate|].
  intros H. destruct (c =? 95)%N eqn:E95.
  - destruct us; [trivial|]. apply IH.
    apply orb_true_iff in H. destruct H as [H | H]; [|exact H].
    apply foreign_not_underscore in H. congruence.
  - destruct (int_digit c) eqn:Ed.
    + apply IH. apply orb_true_iff in H. destruct H as [H | H]; [|exact H].
      apply foreign_not_digit in H. congruence.
    + destruct us; [trivial|]. exact H.
Qed.

Lemma int_unsigned_foreign (s : str) :
  existsb foreign_char s = true -> int_unsigned s = None.
Proof.
  unfold int_unsigned. destruct s as [|c r]; [reflexivity|]. intros H.
  destruct (int_digit c) eqn:Ed; [|reflexivity].
  assert (Hr : existsb foreign_char r = true).
  { cbn in H. apply orb_true_iff in H. destruct H as [H | H]; [|exact H].
    apply foreign_not_digit in H. congruence. }
  pose proof (scan_digits_foreign r false n 1 Hr) as Hs.
  destruct (scan_digits r false n 1) as [[[v k] rest]|]; [|reflexivity].
  pose proof (skip_space_nil_foreign _ Hs).
  destruct (skip_space rest); [contradiction | reflexivity].
Qed.

(** A string holding a foreign character, such as every HTTP date, is
    not read by [int]. *)
Lemma py_int_foreign (s : str) : existsb foreign_char s = true -> py_int s = None.
Proof.
  intros H. unfold py_int. apply skip_space_foreign in H.
  destruct (skip_space s) as [|c r]; [reflexivity|].
  destruct (c =? 43)%N eqn:E1; [|destruct (c =? 45)%N eqn:E2].
  - rewrite int_unsigned_foreign; [reflexivity|].
    cbn in H. apply orb_true_iff in H. destruct H as [H | H]; [|exact H].
    apply foreign_not_sign in H. destruct H. congruence.
  - rewrite int_unsigned_foreign; [reflexivity|].
    cbn in H. apply orb_true_iff in H. destruct H as [H | H]; [|exact H].
    apply foreign_not_sign in H. destruct H. congruence.
  - rewrite int_unsigned_foreign; [reflexivity | exact H].
Qed.

Lemma main_raised_is_fatal (cf : cache_file) (cw hw : bool) (rs : list response)
    (token : str) (g : gen_locals) (tr : list event) (l : loop_state) (ex : exn) :
  tok (get_token cf cw) = Ok token ->
  fetch_init token = Ok g ->
  main_loop g rs (loop_start (con_at_loop cf cw)) = (tr, l, Raised ex) ->
  run_exit (main cf cw hw rs) = Some 1%Z
  /\ run_hits (main cf cw hw rs) = None
  /\ run_console (main cf cw hw rs) = console (st l) ++ [PFatal ex]
  /\ run_trace (main cf cw hw rs) = tr.
Proof.
  intros Htok Hinit Hloop. unfold main. fold (con_at_loop cf cw).
  rewrite Htok, Hinit, Hloop. cbn. auto.
Qed.
Lemma fetch_step_yields (g : gen_locals) (r : response) (d : listing) :
  yields r = Some d ->
  exists g',
    fetch_step g r = SYield (page_of d) (total_of g d) g' d
    /\ resume g' d = option_map (follow g d) (link_of d).
Proof.
  unfold yields, fetch_step. intros H.
  destruct (status_code r =? 429)%Z; [discriminate|].
  destruct ((400 <=? status_code r) && (status_code r <? 600))%Z; [discriminate|].
  cbn in H. rewrite H. unfold page_of, total_of, resume, link_of, follow, total_of.
  destruct (g_first g) eqn:Ef; eexists; (split; [reflexivity|]);
    destruct (odata_nextLink d) as [[|c s]|]; cbn; rewrite ?Ef; reflexivity.
Qed.

(** C10. On a 429 response whose [Retry-After] value is present and is
    not read by [int] as a decimal integer, the fetcher raises
    [ValueError]: after the one request there is no sleep and no retry,
    the loop of [main] ends with that exception and the run takes the
    failure path (the [[FATAL]] line, exit status 1, no file).  An HTTP
    date is such a value, as is every value that holds a character other
    than a digit, a sign, an underscore or white space. *)
Theorem bad_retry_after_aborts (g : gen_locals) (r : response) (v : str) :
  status_code r = 429%Z -> retry_after r = Some v -> py_int v = None ->
  fetch_step g r = SRaise ValueError
  /\ (forall rs, fetch_loop g (r :: rs) = ([EvGet (request_of g)], [], Raised ValueError))
  /\ (forall rs l, main_loop g (r :: rs) l = ([EvGet (request_of g)], l, Raised ValueError))
  /\ (forall cf cw hw token rs,
         tok (get_token cf cw) = Ok token -> fetch_init token = Ok g ->
         run_exit (main cf cw hw (r :: rs)) = Some 1%Z
         /\ run_hits (main cf cw hw (r :: rs)) = None
         /\ run_trace (main cf cw hw (r :: rs)) = [EvGet (request_of g)]
         /\ run_console (main cf cw hw (r :: rs))
            = con_at_loop cf cw ++ [PFatal ValueError])
  /\ py_int (lit "Wed, 21 Oct 2015 07:28:00 GMT") = None
  /\ (forall s, existsb foreign_char s = true -> py_int s = None).
Proof.
  intros Hst Hra Hint.
  assert (Hstep : fetch_step g r = SRaise ValueError).
  { unfold fetch_step. rewrite Hst, Hra, Hint. reflexivity. }
  assert (Hloop : forall rs l,
             main_loop g (r :: rs) l = ([EvGet (request_of g)], l, Raised ValueError)).
  { intros rs l. cbn [main_loop]. rewrite Hstep. reflexivity. }
  conjs.
  - exact Hstep.
  - intros rs. cbn [fetch_loop]. rewrite Hstep. reflexivity.
  - exact Hloop.
  - intros cf cw hw token rs Htok Hinit.
    destruct (@main_raised_is_fatal cf cw hw (r :: rs) token g _ _ _ Htok Hinit (Hloop rs _))
      as (H1 & H2 & H3 & H4).
    conjs; assumption.
  - apply py_int_foreign. vm_compute. reflexivity.
  - apply py_int_foreign.
Qed.


Lemma fetch_loop_serves (rs : list response) (ds : list listing) :
  serves rs ds ->
  forall g extra,
    fetch_loop g (rs ++ extra) = (List.map get_of (gen_chain g ds), yielded g ds, Done).
Proof.
  induction 1 as [r d Hy Hl | r d link rs ds Hy Hl Hs IH]; intros g extra;
    cbn [app fetch_loop gen_chain yielded List.map];
    destruct (fetch_step_yields g r Hy) as (g' & -> & ->); rewrite Hl; cbn [option_map].
  - reflexivity.
  - rewrite IH. reflexivity.
Qed.

Lemma fetch_loop_waits (rs : list response) (ds : list listing) :
  serves rs ds ->
  forall g k, k < List.length rs -> snd (fetch_loop g (firstn k rs)) = Waiting.
Proof.
  induction 1 as [r d Hy Hl | r d link rs ds Hy Hl Hs IH]; intros g k Hk;
    (destruct k as [|k]; [reflexivity|]); cbn [List.length] in Hk.
  - lia.
  - cbn [firstn fetch_loop].
    destruct (fetch_step_yields g r Hy) as (g' & -> & ->). rewrite Hl. cbn [option_map].
    specialize (IH (follow g d link) k ltac:(lia)).
    destruct (fetch_loop (follow g d link) (firstn k rs)) as [[tr ps] e]. exact IH.
Qed.

Lemma yielded_pages (rs : list response) (ds : list listing) :
  serves rs ds ->
  forall g,
    List.map fst (yielded g ds) = List.map page_of ds
    /\ List.length (gen_chain g ds) = List.length rs
    /\ forall d1 ds', ds = d1 :: ds' ->
                      Forall (fun x => snd x = total_of g d1) (yielded g ds).
Proof.
  induction 1 as [r d Hy Hl | r d link rs ds Hy Hl Hs IH]; intros g;
    cbn [yielded gen_chain List.map fst List.length]; rewrite Hl.
  - conjs; try reflexivity. intros d1 ds' E. injection E as <- <-.
    constructor; [reflexivity | constructor].
  - destruct (IH (follow g d link)) as (H1 & H2 & H3).
    rewrite H1, H2. conjs; try reflexivity.
    intros d1 ds' E. injection E as <- <-. constructor; [reflexivity|].
    inversion Hs; subst; eapply Forall_impl; try (eapply H3; reflexivity);
      intros x Hx; rewrite Hx; reflexivity.
Qed.

Lemma gen_chain_nth (ds : list listing) :
  forall g i gi,
    nth_error (gen_chain g ds) (S i) = Some gi ->
    exists d l,
      nth_error ds i = Some d /\ link_of d = Some l
      /\ request_of gi = {| req_url := l; req_params := None; req_headers := g_headers g |}.
Proof.
  induction ds as [|d ds IH]; intros g i gi; cbn [gen_chain nth_error].
  - destruct i; discriminate.
  - destruct (link_of d) as [l|] eqn:El; [|destruct i; discriminate].
    destruct i as [|i].
    + destruct ds as [|d' ds']; cbn [gen_chain nth_error]; [discriminate|].
      intros H. injection H as <-. exists d, l. conjs; [reflexivity | exact El | reflexivity].
    + intros H. destruct (IH _ _ _ H) as (d' & l' & H1 & H2 & H3).
      exists d', l'. conjs; assumption.
Qed.

(** C3. When the server serves a finite collection (every response
    delivers a page, every page but the last with a continuation link),
    the fetch sequence ends at the response that carries no link and not
    before: it yields the pages once each, in the order served, makes one
    request per page and never asks for a response after the last one.
    The first request is the initial one; every later request has the
    link of the previous response as its URL, no parameters and the same
    headers.  In general the generator, resumed after a page, stops
    exactly when the page carried no link. *)
Theorem pagination_follows_links (token : str) (g : gen_locals)
    (rs : list response) (ds : list listing) :
  fetch_init token = Ok g -> serves rs ds ->
  (forall extra,
      fetch_pages token (rs ++ extra)
      = (List.map get_of (gen_chain g ds), yielded g ds, Done))
  /\ List.map fst (yielded g ds) = List.map page_of ds
  /\ List.length (gen_chain g ds) = List.length rs
  /\ (forall k, k < List.length rs -> snd (fetch_pages token (firstn k rs)) = Waiting)
  /\ (nth_error (gen_chain g ds) 0 = Some g
      /\ g_url g = base_url /\ g_params g <> None)
  /\ (forall i gi,
         nth_error (gen_chain g ds) (S i) = Some gi ->
         exists d l,
           nth_error ds i = Some d /\ link_of d = Some l
           /\ request_of gi
              = {| req_url := l; req_params := None; req_headers := g_headers g |})
  /\ (forall g0 r d,
         yields r = Some d ->
         exists g',
           fetch_step g0 r = SYield (page_of d) (total_of g0 d) g' d
           /\ (link_of d = None <-> resume g' d = None)
           /\ (forall l, link_of d = Some l ->
                         exists g'', resume g' d = Some g''
                                     /\ request_of g''
                                        = {| req_url := l; req_params := None;
                                             req_headers := g_headers g0 |})).
Proof.
  intros Hinit Hs.
  destruct (yielded_pages Hs g) as (H1 & H2 & _).
  conjs; trivial.
  - intros extra. unfold fetch_pages. rewrite Hinit. apply fetch_loop_serves. exact Hs.
  - intros k Hk. unfold fetch_pages. rewrite Hinit. eapply fetch_loop_waits; eauto.
  - inversion Hs; reflexivity.
  - unfold fetch_init in Hinit. destruct (iso_days_ago DAYS_BACK); [|discriminate].
    cbn [bind] in Hinit. injection Hinit as <-. reflexivity.
  - unfold fetch_init in Hinit. destruct (iso_days_ago DAYS_BACK); [|discriminate].
    cbn [bind] in Hinit. injection Hinit as <-. discriminate.
  - apply gen_chain_nth.
  - intros g0 r d Hy. destruct (fetch_step_yields g0 r Hy) as (g' & Hstep & Hres).
    exists g'. conjs; trivial.
    + split.
      * intros Hl. rewrite Hres, Hl. reflexivity.
      * intros Hr. rewrite Hres in Hr. destruct (link_of d); [discriminate | reflexivity].
    + intros l Hl. rewrite Hres, Hl. cbn. eexists. split; reflexivity.
Qed.

(** ** Proofs: the token provider *)

Lemma get_token_by_acquire (cf : cache_file) (w : bool) :
  tok (get_token cf w)
  = match fst (acquire (load_cache cf)) with
    | Raise ex => Raise ex
    | Ok (res, c) =>
        match dict_get (lit "access_token") res with
        | None => Raise (RuntimeError (AuthFailed res))
        | Some token => if w then Ok token else Raise OSError
        end
    end
  /\ tok_written (get_token cf w)
     = match fst (acquire (load_cache cf)) with
       | Raise ex => None
       | Ok (res, c) =>
           match dict_get (lit "access_token") res with
           | None => None
           | Some token => if w then Some (cache_serialize c) else None
           end
       end.
Proof.
  unfold get_token. destruct (acquire (load_cache cf)) as [[[res c]|ex] out]; cbn [fst].
  - destruct (dict_get (lit "access_token") res); [destruct w|]; split; reflexivity.
  - split; reflexivity.
Qed.

Lemma acquire_cases (c : cache) :
  (forall d, truthy_dict (fst (acquire_token_silent c)) = Some d ->
             acquire c = (Ok (d, snd (acquire_token_silent c)), []))
  /\ (truthy_dict (fst (acquire_token_silent c)) = None ->
      dict_has (lit "user_code") initiate_device_flow = false ->
      acquire c = (Raise (RuntimeError (DeviceFlowFailed initiate_device_flow)), []))
  /\ (truthy_dict (fst (acquire_token_silent c)) = None ->
      forall code,
        dict_get (lit "user_code") initiate_device_flow = Some code ->
        acquire c
        = match dict_get (lit "verification_uri") initiate_device_flow with
          | Some uri =>
              (Ok (acquire_token_by_device_flow (snd (acquire_token_silent c))
                     initiate_device_flow), [PAction uri code])
          | None => (Raise KeyError, [])
          end).
Proof.
  unfold acquire. destruct (acquire_token_silent c) as [res c1]. cbn [fst snd].
  conjs.
  - intros d ->. reflexivity.
  - intros -> Hno. rewrite Hno. reflexivity.
  - intros -> code Hcode. unfold dict_has. rewrite Hcode. cbn [is_some negb].
    destruct (dict_get (lit "verification_uri") initiate_device_flow); reflexivity.
Qed.

(** C6. A cache file that is missing, unreadable or corrupt leaves the
    cache empty, and [get_token] then does what it does with no file.
    [get_token] raises its device-flow error exactly when the silent
    acquisition gives nothing and the flow has no user code, and its
    authentication error exactly when the result of the last acquisition
    holds no access token; it raises no other [RuntimeError].  Whenever it
    returns a token, that token is the one of the result and the
    serialized cache has been written to the cache path. *)
Theorem get_token_cache_and_errors (cf : cache_file) (w : bool) :
  (load_cache NoFile = new_cache
   /\ load_cache Unreadable = new_cache
   /\ get_token Unreadable w = get_token NoFile w
   /\ forall s ex,
        cache_deserialize new_cache s = Raise ex ->
        load_cache (Content s) = new_cache
        /\ get_token (Content s) w = get_token NoFile w)
  /\ (forall flow,
         tok (get_token cf w) = Raise (RuntimeError (DeviceFlowFailed flow)) <->
         truthy_dict (fst (acquire_token_silent (load_cache cf))) = None
         /\ dict_has (lit "user_code") initiate_device_flow = false
         /\ flow = initiate_device_flow)
  /\ (forall res,
         tok (get_token cf w) = Raise (RuntimeError (AuthFailed res)) <->
         (exists c, fst (acquire (load_cache cf)) = Ok (res, c))
         /\ dict_has (lit "access_token") res = false)
  /\ (forall token,
         tok (get_token cf w) = Ok token <->
         w = true
         /\ exists res c,
              fst (acquire (load_cache cf)) = Ok (res, c)
              /\ dict_get (lit "access_token") res = Some token)
  /\ (forall token,
         tok (get_token cf w) = Ok token ->
         exists res c,
           fst (acquire (load_cache cf)) = Ok (res, c)
           /\ tok_written (get_token cf w) = Some (cache_serialize c))
  /\ (forall d,
         truthy_dict (fst (acquire_token_silent (load_cache cf))) = Some d ->
         fst (acquire (load_cache cf))
         = Ok (d, snd (acquire_token_silent (load_cache cf))))
  /\ (truthy_dict (fst (acquire_token_silent (load_cache cf))) = None ->
      forall uri code,
        dict_get (lit "verification_uri") initiate_device_flow = Some uri ->
        dict_get (lit "user_code") initiate_device_flow = Some code ->
        acquire (load_cache cf)
        = (Ok (acquire_token_by_device_flow
                 (snd (acquire_token_silent (load_cache cf))) initiate_device_flow),
           [PAction uri code])).
Proof.
  destruct (get_token_by_acquire cf w) as [Htok Hwr].
  destruct (acquire_cases (load_cache cf)) as (Hsil & Hnoflow & Hflow).
  split; [|split; [|split; [|split; [|split; [|split]]]]].
  - conjs; try reflexivity.
    intros s ex Hd.
    assert (Hl : load_cache (Content s) = new_cache) by (cbn; rewrite Hd; reflexivity).
    split; [exact Hl|]. unfold get_token. rewrite Hl. reflexivity.
  - intros flow. rewrite Htok. split.
    + destruct (truthy_dict (fst (acquire_token_silent (load_cache cf)))) as [d|] eqn:Et.
      * rewrite (Hsil d eq_refl). cbn [fst].
        destruct (dict_get (lit "access_token") d); [destruct w|]; discriminate.
      * destruct (dict_get (lit "user_code") initiate_device_flow) as [code|] eqn:Ec.
        -- rewrite (Hflow eq_refl code eq_refl).
           destruct (dict_get (lit "verification_uri") initiate_device_flow); cbn [fst];
             [|discriminate].
           destruct (acquire_token_by_device_flow _ _) as [res c].
           destruct (dict_get (lit "access_token") res); [destruct w|]; discriminate.
        -- assert (Hno : dict_has (lit "user_code") initiate_device_flow = false)
             by (unfold dict_has; rewrite Ec; reflexivity).
           rewrite (Hnoflow eq_refl Hno). cbn [fst]. intros H. injection H as <-. auto.
    + intros (Ht & Hno & ->). rewrite (Hnoflow Ht Hno). reflexivity.
  - intros res. rewrite Htok. split.
    + destruct (fst (acquire (load_cache cf))) as [[res' c]|ex] eqn:Ea.
      * destruct (dict_get (lit "access_token") res') eqn:Eg; [destruct w; discriminate|].
        intros H. injection H as <-. split; [eauto|].
        unfold dict_has. rewrite Eg. reflexivity.
      * intros H. injection H as ->.
        exfalso. destruct (truthy_dict (fst (acquire_token_silent (load_cache cf))))
          as [d|] eqn:Et.
        -- rewrite (Hsil d eq_refl) in Ea. discriminate.
        -- destruct (dict_get (lit "user_code") initiate_device_flow) as [code|] eqn:Ec.
           ++ rewrite (Hflow eq_refl code eq_refl) in Ea.
              destruct (dict_get (lit "verification_uri") initiate_device_flow);
                discriminate.
           ++ assert (Hno : dict_has (lit "user_code") initiate_device_flow = false)
                by (unfold dict_has; rewrite Ec; reflexivity).
              rewrite (Hnoflow eq_refl Hno) in Ea. discriminate.
    + intros [[c Ha] Hno]. rewrite Ha. unfold dict_has in Hno.
      destruct (dict_get (lit "access_token") res); [discriminate | reflexivity].
  - intros token. rewrite Htok. split.
    + destruct (fst (acquire (load_cache cf))) as [[res c]|ex]; [|discriminate].
      destruct (dict_get (lit "access_token") res) eqn:Eg; [|discriminate].
      destruct w; [|discriminate]. intros H. injection H as <-. eauto.
    + intros (-> & res & c & -> & ->). reflexivity.
  - intros token. rewrite Htok, Hwr.
    destruct (fst (acquire (load_cache cf))) as [[res c]|ex]; [|discriminate].
    destruct (dict_get (lit "access_token") res); [|discriminate].
    destruct w; [|discriminate]. eauto.
  - intros d Hd. rewrite (Hsil d Hd). reflexivity.
  - intros Ht uri code Hu Hc. rewrite (Hflow Ht code Hc), Hu. reflexivity.
Qed.

(** ** Proofs: the CSV file *)

Lemma read_rows_step (c : char) (s : str) (rd rd1 : reader) :
  parse_process_char rd (Chr c) = Ok rd1 ->
  line_ends c s = false ->
  read_rows (c :: s) rd = read_rows s rd1.
Proof. intros H1 H2. cbn [read_rows]. rewrite H1. cbn [bind]. rewrite H2. reflexivity. Qed.

Lemma read_rows_step_quoted (c : char) (s : str) (rd rd1 : reader) :
  parse_process_char rd (Chr c) = Ok rd1 ->
  r_state rd1 = IN_QUOTED_FIELD ->
  read_rows (c :: s) rd = read_rows s rd1.
Proof.
  intros H1 H2. cbn [read_rows]. rewrite H1. cbn [bind].
  destruct (line_ends c s); [|reflexivity].
  unfold parse_process_char. rewrite H2. cbn [bind]. rewrite H2. reflexivity.
Qed.

Lemma line_ends_plain (c : char) (s : str) :
  is_newline c = false -> s <> [] -> line_ends c s = false.
Proof.
  unfold is_newline, line_ends. intros H Hs. destruct s as [|x s]; [contradiction|].
  apply orb_false_iff in H. destruct H as [-> ->]. reflexivity.
Qed.

(** The body of a quoted field. *)
Lemma read_quoted_body (f : str) :
  forall acc fs rest,
    rest <> [] ->
    read_rows (double_quotes f ++ rest) (mk_reader IN_QUOTED_FIELD acc fs)
    = read_rows rest (mk_reader IN_QUOTED_FIELD (acc ++ f) fs).
Proof.
  induction f as [|c f IH]; intros acc fs rest Hrest.
  - cbn. rewrite app_nil_r. reflexivity.
  - unfold double_quotes. cbn [flat_map]. fold (double_quotes f).
    replace (acc ++ c :: f) with ((acc ++ [c]) ++ f) by (rewrite <- app_assoc; reflexivity).
    destruct (c =? DQUOTE)%N eqn:Eq.
    + apply N.eqb_eq in Eq. subst c. cbn [app].
      rewrite (@read_rows_step DQUOTE _ _ (mk_reader QUOTE_IN_QUOTED_FIELD acc fs)).
      * rewrite (@read_rows_step_quoted DQUOTE _ _
                   (mk_reader IN_QUOTED_FIELD (acc ++ [DQUOTE]) fs)); [|reflexivity..].
        apply IH. exact Hrest.
      * reflexivity.
      * apply line_ends_plain; [reflexivity | discriminate].
    + cbn [app].
      rewrite (@read_rows_step_quoted c _ _ (mk_reader IN_QUOTED_FIELD (acc ++ [c]) fs)).
      * apply IH. exact Hrest.
      * unfold parse_process_char. cbn. rewrite Eq. reflexivity.
      * reflexivity.
Qed.

Lemma special_false (c : char) :
  special c = false ->
  (c =? COMMA)%N = false /\ (c =? DQUOTE)%N = false /\ is_newline c = false.
Proof.
  unfold special, is_newline. intros H.
  repeat (apply orb_false_iff in H; destruct H as [H ?]).
  conjs; trivial. apply orb_false_iff. split; assumption.
Qed.

(** One plain character of an unquoted field, in a state where a field
    may begin or go on. *)
Lemma plain_char (s0 : rstate) (c : char) (acc : str) (fs : list str) :
  s0 = START_RECORD \/ s0 = START_FIELD \/ s0 = IN_FIELD ->
  special c = false ->
  parse_process_char (mk_reader s0 acc fs) (Chr c)
  = Ok (mk_reader IN_FIELD (acc ++ [c]) fs).
Proof.
  intros Hs Hc. apply special_false in Hc. destruct Hc as (Hc & Hq & Hn).
  destruct Hs as [-> | [-> | ->]]; unfold parse_process_char, start_field;
    cbn [r_state mk_reader]; rewrite ?Hn, ?Hq, ?Hc; reflexivity.
Qed.

(** The body of an unquoted field. *)
Lemma read_plain_body (f : str) :
  forall s0 acc fs rest,
    s0 = START_RECORD \/ s0 = START_FIELD \/ s0 = IN_FIELD ->
    needs_quote f = false -> f <> [] -> rest <> [] ->
    read_rows (f ++ rest) (mk_reader s0 acc fs)
    = read_rows rest (mk_reader IN_FIELD (acc ++ f) fs).
Proof.
  induction f as [|c f IH]; intros s0 acc fs rest Hs Hq Hf Hrest; [contradiction|].
  unfold needs_quote in Hq. cbn [existsb] in Hq. apply orb_false_iff in Hq.
  destruct Hq as [Hc Hq].
  cbn [app]. rewrite (@read_rows_step c _ _ (mk_reader IN_FIELD (acc ++ [c]) fs)).
  - replace (acc ++ c :: f) with ((acc ++ [c]) ++ f) by (rewrite <- app_assoc; reflexivity).
    destruct f as [|c' f'].
    + cbn. rewrite app_nil_r. reflexivity.
    + apply IH; auto. discriminate.
  - apply plain_char; assumption.
  - apply line_ends_plain; [destruct (special_false _ Hc) as (_ & _ & Hn); exact Hn|].
    destruct f; [exact Hrest | discriminate].
Qed.

Lemma read_field (s0 : rstate) (f : str) (fs : list str) (rest : str) :
  s0 = START_RECORD \/ s0 = START_FIELD ->
  rest <> [] ->
  read_rows (csv_field f ++ rest) (mk_reader s0 [] fs)
  = read_rows rest (field_read s0 f fs).
Proof.
  intros Hs Hrest. unfold csv_field, field_read.
  destruct (needs_quote f) eqn:Eq.
  - cbn [app].
    rewrite (@read_rows_step DQUOTE _ _ (mk_reader IN_QUOTED_FIELD [] fs)).
    + rewrite <- app_assoc, read_quoted_body by discriminate.
      cbn [app].
      rewrite (@read_rows_step DQUOTE _ _ (mk_reader QUOTE_IN_QUOTED_FIELD f fs)).
      * reflexivity.
      * reflexivity.
      * apply line_ends_plain; [reflexivity | exact Hrest].
    + destruct Hs as [-> | ->]; reflexivity.
    + apply line_ends_plain; [reflexivity|].
      destruct (double_quotes f); discriminate.
  - destruct f as [|c f']; [reflexivity|].
    apply read_plain_body; auto; try discriminate.
    destruct Hs as [-> | ->]; auto.
Qed.

Lemma comma_after_field (s0 : rstate) (f : str) (fs : list str) (rest : str) :
  s0 = START_RECORD \/ s0 = START_FIELD ->
  rest <> [] ->
  read_rows (COMMA :: rest) (field_read s0 f fs)
  = read_rows rest (mk_reader START_FIELD [] (fs ++ [f])).
Proof.
  intros Hs Hrest. apply read_rows_step.
  - unfold field_read. destruct (needs_quote f); [reflexivity|].
    destruct f; [destruct Hs as [-> | ->]|]; reflexivity.
  - apply line_ends_plain; [reflexivity | exact Hrest].
Qed.

Lemma line_ends_LF (rest : str) : line_ends LF rest = true.
Proof. destruct rest; reflexivity. Qed.

Lemma crlf_after_save (fs : list str) (rest : str) :
  read_rows (LF :: rest) (mk_reader EAT_CRNL [] fs)
  = rows <- read_rows rest rd_reset ;; Ok (fs :: rows).
Proof.
  cbn [read_rows]. unfold parse_process_char at 1. cbn [r_state mk_reader].
  change (is_newline LF) with true. cbn [bind]. rewrite line_ends_LF. reflexivity.
Qed.

Lemma crlf_after_field (s0 : rstate) (f : str) (fs : list str) (rest : str) :
  s0 = START_RECORD \/ s0 = START_FIELD ->
  (s0 = START_RECORD -> f <> []) ->
  read_rows (CR :: LF :: rest) (field_read s0 f fs)
  = rows <- read_rows rest rd_reset ;; Ok ((fs ++ [f]) :: rows).
Proof.
  intros Hs Hf.
  rewrite (@read_rows_step CR _ _ (mk_reader EAT_CRNL [] (fs ++ [f]))).
  - apply crlf_after_save.
  - unfold field_read. destruct (needs_quote f); [reflexivity|].
    destruct f; [|reflexivity].
    destruct Hs as [-> | ->]; [exfalso; apply Hf; reflexivity | reflexivity].
  - reflexivity.
Qed.

Lemma csv_field_nonempty (f : str) : f <> [] -> csv_field f <> [].
Proof.
  unfold csv_field. destruct (needs_quote f); [discriminate | trivial].
Qed.

Lemma read_join (fields : list str) :
  forall s0 fs rest,
    fields <> [] ->
    s0 = START_RECORD \/ s0 = START_FIELD ->
    (s0 = START_RECORD -> fields <> [[]]) ->
    read_rows (csv_join fields ++ CR :: LF :: rest) (mk_reader s0 [] fs)
    = rows <- read_rows rest rd_reset ;; Ok ((fs ++ fields) :: rows).
Proof.
  induction fields as [|f fields IH]; intros s0 fs rest Hne Hs Hsingle; [contradiction|].
  destruct fields as [|f2 fields'].
  - cbn [csv_join]. rewrite read_field by (trivial; discriminate).
    apply crlf_after_field; [exact Hs|].
    intros E Ef. apply (Hsingle E). rewrite Ef. reflexivity.
  - change (csv_join (f :: f2 :: fields'))
      with (csv_field f ++ COMMA :: csv_join (f2 :: fields')).
    rewrite <- app_assoc. rewrite read_field by (trivial; discriminate).
    cbn [app]. rewrite comma_after_field; [|exact Hs|].
    + rewrite IH; [|discriminate | right; reflexivity | discriminate].
      rewrite <- app_assoc. reflexivity.
    + destruct (csv_join (f2 :: fields')); discriminate.
Qed.

(** The reader gives back a row that the writer wrote. *)
Lemma read_row (fields : list str) (rest : str) :
  fields <> [] ->
  read_rows (csv_row fields ++ rest) rd_reset
  = rows <- read_rows rest rd_reset ;; Ok (fields :: rows).
Proof.
  intros Hne.
  assert (Hgen : fields <> [[]] ->
                 read_rows ((csv_join fields ++ [CR; LF]) ++ rest) rd_reset
                 = rows <- read_rows rest rd_reset ;; Ok (fields :: rows)).
  { intros H1. rewrite <- app_assoc. cbn [app].
    apply (@read_join fields START_RECORD [] rest); auto. }
  unfold csv_row.
  destruct fields as [|f fields']; [contradiction|].
  destruct f as [|c f]; [|apply Hgen; discriminate].
  destruct fields' as [|f2 fields'']; [|apply Hgen; discriminate].
  cbn [app].
  rewrite (@read_rows_step DQUOTE _ _ (mk_reader IN_QUOTED_FIELD [] []));
    [|reflexivity|reflexivity].
  rewrite (@read_rows_step DQUOTE _ _ (mk_reader QUOTE_IN_QUOTED_FIELD [] []));
    [|reflexivity|reflexivity].
  rewrite (@read_rows_step CR _ _ (mk_reader EAT_CRNL [] [[]]));
    [|reflexivity|reflexivity].
  apply crlf_after_save.
Qed.

(** The text of several rows reads back as the rows. *)
Lemma read_all_rows (rows : list (list str)) :
  Forall (fun fields => fields <> []) rows ->
  read_rows (List.concat (List.map csv_row rows)) rd_reset = Ok rows.
Proof.
  induction 1 as [|fields rows Hne _ IH]; [reflexivity|].
  cbn [List.map List.concat]. rewrite read_row by exact Hne. rewrite IH. reflexivity.
Qed.
Lemma header_row :
  csv_row match_keys
  = lit "id,internetMessageId,from,receivedDateTime,subject,webLink" ++ [CR; LF].
Proof. vm_compute. reflexivity. Qed.

Lemma dict_to_list_mk (msg : message) :
  dict_to_list match_keys (mk_match msg) = Ok (values (mk_match msg)).
Proof. reflexivity. Qed.

Lemma csv_rows_mk (msgs : list message) :
  csv_rows match_keys (List.map mk_match msgs)
  = Ok (List.concat (List.map (fun m => csv_row (values m)) (List.map mk_match msgs))).
Proof.
  induction msgs as [|msg msgs IH]; [reflexivity|].
  cbn [List.map csv_rows List.concat]. rewrite dict_to_list_mk. cbn [bind].
  rewrite IH. reflexivity.
Qed.

Lemma csv_text_mk (msgs : list message) :
  msgs <> [] -> csv_text (List.map mk_match msgs) = Ok (file_text (List.map mk_match msgs)).
Proof.
  intros Hne. unfold csv_text, file_text. destruct msgs as [|msg msgs]; [contradiction|].
  change (keys (hd [] (List.map mk_match (msg :: msgs)))) with match_keys.
  rewrite csv_rows_mk. reflexivity.
Qed.

Lemma zip_row_mk (msg : message) :
  zip_row match_keys (values (mk_match msg)) [] = Some (blank_none (mk_match msg)).
Proof. reflexivity. Qed.

Lemma zip_rows_mk (msgs : list message) :
  zip_rows match_keys (List.map values (List.map mk_match msgs))
  = Some (List.map blank_none (List.map mk_match msgs)).
Proof.
  induction msgs as [|msg msgs IH]; [reflexivity|].
  cbn [List.map]. change (values (mk_match msg)) with
    (or_empty (msg_id msg) :: tl (values (mk_match msg))).
  cbn [zip_rows].
  change (or_empty (msg_id msg) :: tl (values (mk_match msg))) with (values (mk_match msg)).
  rewrite zip_row_mk, IH. reflexivity.
Qed.

(** The file written for the records of some messages reads back as the
    records, [None] being read as the empty string. *)
Lemma reparse_file_text (msgs : list message) :
  reparse (file_text (List.map mk_match msgs))
  = Some (List.map blank_none (List.map mk_match msgs)).
Proof.
  unfold reparse, file_text.
  replace (csv_row match_keys ++
           List.concat (List.map (fun m => csv_row (values m)) (List.map mk_match msgs)))
    with (List.concat (List.map csv_row
            (match_keys :: List.map values (List.map mk_match msgs))))
    by (cbn [List.map List.concat]; rewrite map_map; reflexivity).
  rewrite read_all_rows.
  - apply zip_rows_mk.
  - constructor; [discriminate|].
    rewrite map_map. apply Forall_map. apply Forall_forall. intros msg _. discriminate.
Qed.

Lemma blank_none_same (m : match_record) :
  Forall (fun kv => snd kv <> None) m -> blank_none m = m.
Proof.
  induction 1 as [|[k v] m Hv _ IH]; [reflexivity|].
  cbn [blank_none List.map]. fold (blank_none m). rewrite IH.
  destruct v as [v|]; [reflexivity | contradiction].
Qed.

Lemma blank_none_all_same (ms : list match_record) :
  Forall (Forall (fun kv => snd kv <> None)) ms -> List.map blank_none ms = ms.
Proof.
  induction 1 as [|m ms Hm _ IH]; [reflexivity|].
  cbn [List.map]. rewrite IH, (blank_none_same Hm). reflexivity.
Qed.

Lemma count_lines_plain (s rest : str) :
  one_line s = true -> rest <> [] -> count_lines (s ++ rest) = count_lines rest.
Proof.
  intros Hs Hrest. induction s as [|c s IH]; [reflexivity|].
  cbn [one_line forallb] in Hs. apply andb_true_iff in Hs. destruct Hs as [Hc Hs].
  apply negb_true_iff in Hc. cbn [app count_lines].
  rewrite line_ends_plain; [apply IH; exact Hs | exact Hc |].
  destruct s; [exact Hrest | discriminate].
Qed.

Lemma count_lines_crlf (rest : str) :
  count_lines (CR :: LF :: rest) = S (count_lines rest).
Proof. cbn [count_lines]. rewrite line_ends_LF. reflexivity. Qed.

Lemma one_line_app (a b : str) : one_line (a ++ b) = one_line a && one_line b.
Proof. apply forallb_app. Qed.

Lemma one_line_double_quotes (f : str) : one_line f = true -> one_line (double_quotes f) = true.
Proof.
  induction f as [|c f IH]; [reflexivity|].
  cbn [one_line forallb]. intros H. apply andb_true_iff in H. destruct H as [Hc Hf].
  unfold double_quotes. cbn [flat_map]. fold (double_quotes f).
  rewrite one_line_app, (IH Hf), andb_true_r.
  destruct (c =? DQUOTE)%N; [reflexivity|]. cbn. rewrite Hc. reflexivity.
Qed.

Lemma one_line_csv_field (f : str) : one_line f = true -> one_line (csv_field f) = true.
Proof.
  intros H. unfold csv_field. destruct (needs_quote f); [|exact H].
  change (DQUOTE :: double_quotes f ++ [DQUOTE])
    with ([DQUOTE] ++ double_quotes f ++ [DQUOTE]).
  rewrite !one_line_app, (one_line_double_quotes _ H). reflexivity.
Qed.

Lemma one_line_csv_join (fields : list str) :
  forallb one_line fields = true -> one_line (csv_join fields) = true.
Proof.
  induction fields as [|f fields IH]; [reflexivity|].
  cbn [forallb]. intros H. apply andb_true_iff in H. destruct H as [Hf Hfs].
  destruct fields as [|f2 fields'].
  - apply one_line_csv_field. exact Hf.
  - change (csv_join (f :: f2 :: fields'))
      with (csv_field f ++ [COMMA] ++ csv_join (f2 :: fields')).
    rewrite !one_line_app, (one_line_csv_field _ Hf), (IH Hfs). reflexivity.
Qed.

(** A row whose cells hold no line break is one line of the file. *)
Lemma count_lines_row (fields : list str) (rest : str) :
  forallb one_line fields = true ->
  count_lines (csv_row fields ++ rest) = S (count_lines rest).
Proof.
  intros H.
  assert (Hgen : count_lines ((csv_join fields ++ [CR; LF]) ++ rest) = S (count_lines rest)).
  { rewrite <- app_assoc. cbn [app].
    rewrite count_lines_plain; [apply count_lines_crlf | | discriminate].
    apply one_line_csv_join. exact H. }
  unfold csv_row. destruct fields as [|[|c f] [|f2 fields']]; exact Hgen.
Qed.

Lemma count_lines_rows (rows : list (list str)) :
  forallb (forallb one_line) rows = true ->
  count_lines (List.concat (List.map csv_row rows)) = List.length rows.
Proof.
  induction rows as [|fields rows IH]; [reflexivity|].
  cbn [forallb List.map List.concat List.length]. intros H.
  apply andb_true_iff in H. destruct H as [Hf Hr].
  rewrite count_lines_row by exact Hf. rewrite IH by exact Hr. reflexivity.
Qed.

Lemma forallb_of_map {A B} (f : A -> B) (p : B -> bool) (l : list A) :
  forallb p (List.map f l) = forallb (fun x => p (f x)) l.
Proof. induction l as [|x l IH]; [reflexivity|]. cbn. rewrite IH. reflexivity. Qed.

Lemma count_lines_file (ms : list match_record) :
  forallb (fun m => forallb one_line (values m)) ms = true ->
  count_lines (file_text ms) = S (List.length ms).
Proof.
  intros H. unfold file_text.
  rewrite count_lines_row by (vm_compute; reflexivity).
  f_equal. rewrite <- (length_map values ms), <- count_lines_rows.
  - rewrite map_map. reflexivity.
  - rewrite forallb_of_map. exact H.
Qed.

(** The matches of a run are the records made from some messages. *)
Lemma run_matches_made (cf : cache_file) (cw hw : bool) (rs : list response) :
  exists msgs, run_matches (main cf cw hw rs) = List.map mk_match msgs.
Proof.
  destruct (main_cases cf cw hw rs)
    as [(_ & _ & E & _) | (token & g & tr & l & e & _ & _ & Hrun & _ & _ & E & _)];
    rewrite E.
  - exists []. reflexivity.
  - pose proof (main_loop_from_start _ _ _ Hrun) as Hleft.
    unfold left_at in Hleft. cbv zeta in Hleft.
    destruct Hleft as (_ & _ & H3 & _). rewrite H3. unfold hits. eauto.
Qed.

(** C5, as the code has it. Of a run that ends normally: with no match no
    file is written and the summary reports no match with the number of
    messages scanned.  With [n >= 1] matches the file holds the header row
    (id, internetMessageId, from, receivedDateTime, subject, webLink)
    followed by one row per match, in order; read back, the file gives
    the Match Records with every absent ([None]) value read as the empty
    string, hence the records themselves when no value is absent; and the
    file has exactly [n + 1] lines when no value holds a carriage return or
    a line feed. *)
Theorem hits_csv_round_trip (cf : cache_file) (cw hw : bool) (rs : list response) :
  run_exit (main cf cw hw rs) = Some 0%Z ->
  (run_matches (main cf cw hw rs) = [] ->
   run_hits (main cf cw hw rs) = None
   /\ exists before,
        run_console (main cf cw hw rs)
        = before ++ [PDoneNone (run_scanned (main cf cw hw rs)); PNotes])
  /\ (run_matches (main cf cw hw rs) <> [] ->
      run_hits (main cf cw hw rs) = Some (file_text (run_matches (main cf cw hw rs)))
      /\ file_text (run_matches (main cf cw hw rs))
         = (lit "id,internetMessageId,from,receivedDateTime,subject,webLink" ++ [CR; LF])
           ++ List.concat (List.map (fun m => csv_row (values m))
                                    (run_matches (main cf cw hw rs)))
      /\ reparse (file_text (run_matches (main cf cw hw rs)))
         = Some (List.map blank_none (run_matches (main cf cw hw rs)))
      /\ (Forall (Forall (fun kv => snd kv <> None)) (run_matches (main cf cw hw rs)) ->
          reparse (file_text (run_matches (main cf cw hw rs)))
          = Some (run_matches (main cf cw hw rs)))
      /\ (forallb (fun m => forallb one_line (values m)) (run_matches (main cf cw hw rs))
          = true ->
          count_lines (file_text (run_matches (main cf cw hw rs)))
          = List.length (run_matches (main cf cw hw rs)) + 1)
      /\ exists before,
           run_console (main cf cw hw rs)
           = before ++ [PDoneSaved (List.length (run_matches (main cf cw hw rs)))
                                   (run_scanned (main cf cw hw rs)) OUT; PNotes]).
Proof.
  intros Hexit.
  destruct (run_matches_made cf cw hw rs) as [msgs Hmsgs].
  destruct (main_cases cf cw hw rs)
    as [(_ & _ & _ & _ & _ & E) | (token & g & tr & l & e & _ & _ & _ & _ & Es & Em & _ & _ & _ & Hok)];
    [congruence|].
  destruct (Hok Hexit) as (_ & Hhits & Hcon). clear Hok.
  rewrite Hhits, Hcon, Es. rewrite Em in *. split.
  - intros E. rewrite E. split; [reflexivity | eauto].
  - intros Hne.
    assert (Hm : msgs <> []) by (intros ->; apply Hne; exact Hmsgs).
    pose proof (csv_text_mk Hm) as Hcsv. rewrite <- Hmsgs in Hcsv.
    destruct (matches (st l)) as [|m ms] eqn:Ems; [contradiction|].
    rewrite Hcsv. conjs.
    + reflexivity.
    + unfold file_text. rewrite header_row. reflexivity.
    + rewrite Hmsgs. apply reparse_file_text.
    + intros Hall. rewrite <- (blank_none_all_same Hall) at 2.
      rewrite Hmsgs. apply reparse_file_text.
    + intros Hone. rewrite count_lines_file by exact Hone. lia.
    + eauto.
Qed.

End Program.

(** * Concrete runs

    The theorems above hold for every table of the interpreter and every
    answer of the server and of the identity library.  Below they are
    applied to one concrete setting: tables that know no character above
    U+007F, an empty [CHANGE_PHRASE], a clock, an identity library whose
    cache already holds a token, and a few mock responses. *)

Definition ascii_word : char -> bool := fun _ => false.
Definition ascii_ci : char -> char -> bool := fun _ _ => false.
Definition ascii_decimal : char -> option N := fun _ => None.

Definition mock_clock : Z -> result str := fun _ => Ok (lit "2026-01-01T00:00:00Z").

Definition mock_silent (c : unit) : option (dict str) * unit :=
  (Some [(lit "access_token", lit "secret")], c).

Definition mock_by_flow (c : unit) (flow : dict str) : dict str * unit := ([], c).

(** [main] in the concrete setting, with caps [max_scan] and [max_results]. *)
Definition mock_main (max_scan max_results : Z) (rs : list response) : run :=
  main ascii_word ascii_ci ascii_decimal [] max_scan max_results mock_clock 5 false
       tt (fun c _ => Ok c) (fun _ => lit "{}") mock_silent [] mock_by_flow
       NoFile true true rs.

Definition mock_gen : gen_locals :=
  {| g_url := lit "https://graph.example/messages";
     g_params := Some [(lit "$top", lit "50")];
     g_headers := [(lit "Authorization", lit "Bearer secret")];
     g_first := true;
     g_total_est := None |}.

Definition mock_msg (id subject preview : string) (sender : option string) : message :=
  {| msg_id := Some (lit id);
     msg_subject := Some (lit subject);
     msg_from :=
       option_map (fun a => {| emailAddress := Some {| address := Some (lit a) |} |}) sender;
     msg_receivedDateTime := Some (lit "2026-01-01T08:00:00Z");
     msg_webLink := Some (lit "https://outlook.example/item");
     msg_internetMessageId := Some (lit "<1@example>");
     msg_bodyPreview := Some (lit preview) |}.

Definition dull : message :=
  mock_msg "m0" "change of plans" "see you soon" (Some "bob@example.com"%string).

Definition fraud1 : message :=
  mock_msg "m1" "Please change our billing address" "" (Some "eve@example.com"%string).

Definition fraud2 : message :=
  mock_msg "m2" "Fwd: invoice" "kindly UPDATE the wire instructions" (Some "mal@example.com"%string).

(** A qualifying message whose sender is absent. *)
Definition fraud_no_sender : message :=
  mock_msg "m3" "Please change our billing address" "" None.

Definition ok_response (page : list message) (link : option string) : response :=
  {| status_code := 200;
     retry_after := None;
     body := Some {| value := Some page;
                     odata_count := Some 10%Z;
                     odata_nextLink := option_map lit link |} |}.

Definition busy_response (retry : option string) : response :=
  {| status_code := 429; retry_after := option_map lit retry; body := None |}.

Definition http_date : string := "Wed, 21 Oct 2015 07:28:00 GMT".





(** Two pages, the first with a continuation link. *)
Definition two_pages : list response :=
  [ok_response [dull; fraud1] (Some "https://graph.example/next"%string);
   ok_response [fraud2] None].

Definition two_listings : list listing :=
  [ {| value := Some [dull; fraud1]; odata_count := Some 10%Z;
       odata_nextLink := Some (lit "https://graph.example/next") |};
    {| value := Some [fraud2]; odata_count := Some 10%Z; odata_nextLink := None |} ].

Lemma serves_two_pages : serves two_pages two_listings.
Proof.
  eapply serves_more; [reflexivity | reflexivity |].
  apply serves_last; reflexivity.
Defined.

Lemma pagination_follows_links_witness :
  exists g,
    fetch_init mock_clock 5 (lit "secret") = Ok g
    /\ serves two_pages two_listings
    /\ fetch_pages ascii_decimal mock_clock 5 (lit "secret") two_pages
       = ([EvGet (request_of g);
           EvGet {| req_url := lit "https://graph.example/next"; req_params := None;
                    req_headers := g_headers g |}],
          [([dull; fraud1], Some 10%Z); ([fraud2], Some 10%Z)], Done).
Proof.
  eexists. split; [reflexivity|]. split; [exact serves_two_pages|].
  pose proof (@pagination_follows_links ascii_decimal mock_clock 5 (lit "secret")
                _ two_pages two_listings eq_refl serves_two_pages) as H.
  destruct H as (H & _). specialize (H []). rewrite app_nil_r in H.
  rewrite H. reflexivity.
Defined.



Lemma bad_retry_after_aborts_witness :
  status_code (busy_response (Some http_date)) = 429%Z
  /\ retry_after (busy_response (Some http_date)) = Some (lit http_date)
  /\ py_int ascii_decimal (lit http_date) = None
  /\ fetch_step ascii_decimal mock_gen (busy_response (Some http_date)) = SRaise ValueError.
Proof.
  assert (H1 : status_code (busy_response (Some http_date)) = 429%Z) by reflexivity.
  assert (H2 : retry_after (busy_response (Some http_date)) = Some (lit http_date))
    by reflexivity.
  assert (H3 : py_int ascii_decimal (lit http_date) = None) by (vm_compute; reflexivity).
  pose proof (@bad_retry_after_aborts ascii_word ascii_ci ascii_decimal [] 100 100
                mock_clock 5 false unit tt (fun c _ => Ok c) (fun _ => lit "{}")
                mock_silent [] mock_by_flow mock_gen _ _ H1 H2 H3) as H.
  destruct H as (H & _).
  repeat split; assumption.
Defined.

(** A run with two matches among three messages. *)
Definition two_hits : run := mock_main 100 100 [ok_response [fraud1; dull; fraud2] None].

Lemma hits_csv_round_trip_witness :
  run_exit two_hits = Some 0%Z
  /\ List.length (run_matches two_hits) = 2
  /\ run_hits two_hits = Some (file_text (run_matches two_hits))
  /\ reparse (file_text (run_matches two_hits)) = Some (run_matches two_hits)
  /\ count_lines (file_text (run_matches two_hits)) = 3.
Proof.
  assert (H1 : run_exit two_hits = Some 0%Z) by (vm_compute; reflexivity).
  pose proof (@hits_csv_round_trip ascii_word ascii_ci ascii_decimal [] 100 100
                mock_clock 5 false unit tt (fun c _ => Ok c) (fun _ => lit "{}")
                mock_silent [] mock_by_flow NoFile true true
                [ok_response [fraud1; dull; fraud2] None] H1) as H.
  destruct H as (_ & H).
  assert (Hne : run_matches two_hits <> []) by (vm_compute; discriminate).
  destruct (H Hne) as (Hh & _ & Hr & _ & Hl & _).
  split; [exact H1|]. split; [vm_compute; reflexivity|]. split; [exact Hh|].
  split.
  - unfold two_hits, mock_main. rewrite Hr. vm_compute. reflexivity.
  - unfold two_hits, mock_main. rewrite Hl; vm_compute; reflexivity.
Defined.

(** A run whose one match has no sender: the record holds [None] for
    the sender and the file gives the empty string back. *)
Definition no_sender_run : run := mock_main 100 100 [ok_response [fraud_no_sender] None].

Lemma absent_sender_not_read_back :
  run_exit no_sender_run = Some 0%Z
  /\ List.length (run_matches no_sender_run) = 1
  /\ List.map (dict_get (lit "from")) (run_matches no_sender_run) = [Some None]
  /\ run_hits no_sender_run = Some (file_text (run_matches no_sender_run))
  /\ option_map (List.map (dict_get (lit "from")))
       (reparse (file_text (run_matches no_sender_run)))
     = Some [Some (Some [])]
  /\ reparse (file_text (run_matches no_sender_run)) <> Some (run_matches no_sender_run).
Proof.
  repeat split; try (vm_compute; reflexivity).
  vm_compute. discriminate.
Qed.
